(** * mcp-proxy-server: aggregation, routing and session bookkeeping

    A shallow embedding of the proxy core and the properties of its
    specification.  The sources are [src/mcp-proxy.ts], which carries the
    class [ProxyService] (the reconciliation [updateBackendConnections], the
    state export and the request handlers) and the client factory
    ([createClient], [createMcpClients]), and [src/services/HttpService.ts],
    of which the event-stream endpoints [_handleSse] and [_handleMessage]
    are embedded.

    Conventions.
    - A JavaScript [Map] is an association list in insertion order with
      unique keys ([JsMap]).  A plain object used as a record of properties
      ([Record<string, T>]) that is enumerated is the list of its own
      properties in enumeration order (copying a part of them, in that
      order, into a fresh object gives the sub-list in the same order); one
      that is only looked up is a [gmap].
    - The code runs on one thread: a function runs undisturbed up to its
      next [await].  Every [await] is an event of the trace, recorded with
      the state of the service at that suspension point, which is what a
      handler scheduled there reads.  The members of a [Promise.all] are
      started in list order and traced in that order.
    - [console.error] and [console.warn] are events; [console.log] is not
      modelled.
    - What lies outside the process (handshakes, backend answers, the SDK's
      transport objects) is a record of outcomes, [World] and
      [HttpService.Env], given to each call. *)

From Stdlib Require Import ZArith Ascii String List Bool Lia.
From stdpp Require Import base strings list gmap.

Set Warnings "-register-all".

Local Open Scope string_scope.
Local Open Scope list_scope.

(** ** JavaScript values the code relies on *)

Module Js.

(** [a || b] on strings: the empty string is falsy, [undefined] is [None]. *)
Definition or_str (a : option string) (b : string) : string :=
  match a with
  | Some s => if decide (s = "") then b else s
  | None => b
  end.

(** [a || b] where [b] may itself be [undefined]. *)
Definition or_opt (a : option string) (b : option string) : option string :=
  match a with
  | Some s => if decide (s = "") then b else Some s
  | None => b
  end.

(** Truthiness of an optional string. *)
Definition truthy (a : option string) : bool :=
  match a with
  | Some s => if decide (s = "") then false else true
  | None => false
  end.

Definition lower_ascii (c : ascii) : ascii :=
  let n := nat_of_ascii c in
  if (65 <=? n)%nat && (n <=? 90)%nat then ascii_of_nat (n + 32) else c.

(** [String.prototype.toLowerCase] on the ASCII range; other bytes are kept,
    which is all a comparison with an ASCII literal can observe. *)
Fixpoint toLowerCase (s : string) : string :=
  match s with
  | EmptyString => EmptyString
  | String c s' => String (lower_ascii c) (toLowerCase s')
  end.

(** JSON values carried through unchanged (schemas, arguments, metadata). *)
Inductive JSON : Type :=
| JNull
| JBool (b : bool)
| JNum (n : Z)
| JStr (s : string)
| JArr (l : list JSON)
| JObj (l : list (string * JSON)).

(** The value of a thrown exception, as far as the handlers inspect it:
    [error?.name], [error?.code], [error?.message]. *)
Record Exn : Type := mkExn {
  ex_name : string;
  ex_code : option Z;
  ex_message : string
}.

(** [new Error(msg)] *)
Definition Error (msg : string) : Exn :=
  {| ex_name := "Error"; ex_code := None; ex_message := msg |}.

End Js.

(** ** [Map<string, V>]: insertion-ordered, unique keys *)

Module JsMap.
Section Ops.
Context {V : Type}.

Definition t := list (string * V).

Definition empty : t := [].

Fixpoint get (k : string) (m : t) : option V :=
  match m with
  | [] => None
  | (k', v) :: m' => if decide (k' = k) then Some v else get k m'
  end.

Definition has (k : string) (m : t) : bool :=
  match get k m with Some _ => true | None => false end.

(** [Map.prototype.set]: an existing key keeps its position and takes the
    new value, a new key goes to the end. *)
Fixpoint set (k : string) (v : V) (m : t) : t :=
  match m with
  | [] => [(k, v)]
  | (k', v') :: m' =>
      if decide (k' = k) then (k', v) :: m' else (k', v') :: set k v m'
  end.

Fixpoint delete (k : string) (m : t) : t :=
  match m with
  | [] => []
  | (k', v') :: m' =>
      if decide (k' = k) then delete k m' else (k', v') :: delete k m'
  end.

Definition keys (m : t) : list string := map fst m.
End Ops.
Arguments t : clear implicits.
End JsMap.

(** ** Qualified tool names *)

(** [`${connectedClient.name}--${tool.name}`] *)
Definition qualifiedName (backendName toolName : string) : string :=
  backendName +:+ "--" +:+ toolName.

(** A string without the character [-]. *)
Fixpoint hyphen_free (s : string) : bool :=
  match s with
  | EmptyString => true
  | String c s' => if decide (c = "-"%char) then false else hyphen_free s'
  end.

(** ** Data model *)

(** A tool descriptor as a backend reports it ([Tool] of the SDK). *)
Record Tool : Type := mkTool {
  tool_name : string;
  tool_description : option string;
  tool_inputSchema : Js.JSON
}.

Record Resource : Type := mkResource {
  res_uri : string;
  res_name : string;
  res_description : option string
}.

Record Prompt : Type := mkPrompt {
  prompt_name : string;
  prompt_description : option string
}.

(** Modelled from the spec: the declarations of [ToolConfig] live in
    [core/ConfigService.ts]; a ToolOverride is
    [{enabled, exposedName?, exposedDescription?}], every field read by the
    service with a test that tolerates its absence. *)
Record ToolSettings : Type := mkToolSettings {
  enabled : option bool;
  exposedName : option string;
  exposedDescription : option string
}.

Record ToolConfig : Type := mkToolConfig {
  tools : gmap string ToolSettings
}.

(** The value of the [active] property of a server entry. *)
Inductive ActiveVal : Type :=
| ABool (b : bool)
| AStr (s : string).

(** Modelled from the spec: the declaration of [TransportConfig] lives in
    [core/ConfigService.ts]; a TransportDescriptor is a tagged union over
    subprocess, event-stream and HTTP-stream, told apart by [isStdioConfig],
    [isSSEConfig] and [isHttpConfig]; a descriptor none of them accepts is
    [OtherTransport]. *)
Inductive TransportType : Type :=
| SSEConfig (url : string) (bearerToken apiKey : option string)
| StdioConfig (command : string) (args : list string) (env : list (string * string))
| HttpConfig (url : string) (bearerToken apiKey : option string)
| OtherTransport.

Record TransportConfig : Type := mkTransportConfig {
  tc_name : option string;
  tc_active : option ActiveVal;
  tc_type : TransportType
}.

(** Modelled from the spec: the three guards of [core/ConfigService.ts],
    each accepting its kind of the tagged union. *)
Definition isSSEConfig (c : TransportConfig) : bool :=
  match tc_type c with SSEConfig _ _ _ => true | _ => false end.
Definition isStdioConfig (c : TransportConfig) : bool :=
  match tc_type c with StdioConfig _ _ _ => true | _ => false end.
Definition isHttpConfig (c : TransportConfig) : bool :=
  match tc_type c with HttpConfig _ _ _ => true | _ => false end.

(** [Config.mcpServers]: the own properties of the object in enumeration
    order. *)
Record Config : Type := mkConfig {
  mcpServers : list (string * TransportConfig)
}.

(** The identity of a [Client] object. *)
Definition Handle := nat.

(** [ConnectedClient]: the [cleanup] closure closes the transport of this
    very client, so it is determined by the handle. *)
Record ConnectedClient : Type := mkConnectedClient {
  cc_client : Handle;
  cc_name : string
}.

Global Instance ConnectedClient_eq_dec : EqDecision ConnectedClient.
Proof. solve_decision. Defined.

(** The transport objects [createClient] builds. *)
Inductive Transport : Type :=
| SSEClientTransport (url : string) (headers : list (string * string))
| StdioClientTransport (command : string) (args : list string)
                       (env : list (string * string))
| StreamableHTTPClientTransport (url : string) (headers : list (string * string)).

(** ** The environment *)

(** What lies outside the process during one call: the outcome of each
    awaited operation.  [None] is a resolved promise, [Some e] a rejection
    with [e]. *)
Record World : Type := mkWorld {
  process_env : list (string * string);
  (** [new URL(u)] returns *)
  url_parses : string -> bool;
  (** the [Client] object built for a server at a given value of [count] *)
  new_client : string -> nat -> Handle;
  (** [client.connect(transport)] for a server at a given value of [count] *)
  connect : string -> nat -> option Js.Exn;
  (** [client.close()] *)
  client_close : Handle -> option Js.Exn;
  (** [transport.close()], the [cleanup] of a connected client *)
  transport_close : ConnectedClient -> option Js.Exn;
  (** the three discovery requests; the result schema makes the list
      property optional *)
  tools_list : ConnectedClient -> Js.Exn + option (list Tool);
  resources_list : ConnectedClient -> Js.Exn + option (list Resource);
  prompts_list : ConnectedClient -> Js.Exn + option (list Prompt);
  (** [loadConfig()] and [loadToolConfig()] of the configuration service *)
  loadConfig : Config;
  loadToolConfig : ToolConfig
}.

(** ** Effects *)

Inductive Method : Type :=
| tools_list_m | resources_list_m | prompts_list_m.

Inductive Event : Type :=
| EvLoadConfig
| EvLoadToolConfig
| EvConnect (name : string) (count : nat) (h : Handle)
| EvClientClose (h : Handle)
| EvSleep (ms : Z)
| EvCleanup (c : ConnectedClient)
| EvRequest (c : ConnectedClient) (m : Method)
| EvConsoleError (msg : string) (e : option Js.Exn)
| EvConsoleWarn (msg : string).

(** The events at which the running function is suspended ([await]); the
    console calls are synchronous. *)
Definition is_await (e : Event) : bool :=
  match e with
  | EvConsoleError _ _ | EvConsoleWarn _ => false
  | _ => true
  end.

(** A computation over a state [S] with events [E]: an exception or a value,
    the state it leaves, and the events it performed, each with the state
    visible when it was performed. *)
Module Eff.
Section Monad.
Context {E S S0 : Type}.

Definition M (A : Type) : Type :=
  S -> (Js.Exn + A) * S * list (E * S).

Definition ret {A} (a : A) : M A := fun s => (inr a, s, []).

Definition bind {A B} (m : M A) (f : A -> M B) : M B :=
  fun s =>
    match m s with
    | (inl e, s1, t1) => (inl e, s1, t1)
    | (inr a, s1, t1) =>
        match f a s1 with
        | (r, s2, t2) => (r, s2, t1 ++ t2)
        end
    end.

Definition throw {A} (e : Js.Exn) : M A := fun s => (inl e, s, []).

(** [try { m } catch (e) { h e }] *)
Definition try_catch {A} (m : M A) (h : Js.Exn -> M A) : M A :=
  fun s =>
    match m s with
    | (inl e, s1, t1) =>
        match h e s1 with
        | (r, s2, t2) => (r, s2, t1 ++ t2)
        end
    | (inr a, s1, t1) => (inr a, s1, t1)
    end.

(** A synchronous effect. *)
Definition emit (ev : E) : M unit := fun s => (inr tt, s, [(ev, s)]).

(** [await p] where [p] settles to [r]. *)
Definition await {A} (ev : E) (r : Js.Exn + A) : M A :=
  fun s => (r, s, [(ev, s)]).

Definition get : M S := fun s => (inr s, s, []).
Definition modify (f : S -> S) : M unit := fun s => (inr tt, f s, []).

(** A computation without state of its own, run inside a larger one: the
    state is left as it is and is what every event of it sees. *)
Definition lift {A} (m : S0 -> (Js.Exn + A) * S0 * list (E * S0)) (s0 : S0) : M A :=
  fun s =>
    match m s0 with
    | (r, _, t) => (r, s, map (fun x => (x.1, s)) t)
    end.

(** [for (const x of l) { f x }] *)
Fixpoint for_of {A} (l : list A) (f : A -> M unit) : M unit :=
  match l with
  | [] => ret tt
  | x :: l' => bind (f x) (fun _ => for_of l' f)
  end.
End Monad.
Arguments M : clear implicits.

Definition outcome {E S A} (r : (Js.Exn + A) * S * list (E * S)) : Js.Exn + A :=
  r.1.1.
Definition final {E S A} (r : (Js.Exn + A) * S * list (E * S)) : S := r.1.2.
Definition trace {E S A} (r : (Js.Exn + A) * S * list (E * S)) : list (E * S) :=
  r.2.
Definition events {E S A} (r : (Js.Exn + A) * S * list (E * S)) : list E :=
  map fst r.2.
End Eff.

Declare Scope eff_scope.
Delimit Scope eff_scope with eff.
Notation "x <- m ;; k" := (Eff.bind m (fun x => k))
  (at level 100, m at next level, right associativity) : eff_scope.
Notation "m ;;; k" := (Eff.bind m (fun _ => k))
  (at level 100, right associativity) : eff_scope.

(** The outcome of a settled promise as a result: [None] resolved. *)
Definition settle (o : option Js.Exn) : Js.Exn + unit :=
  match o with Some e => inl e | None => inr tt end.

(** ** The client factory ([core/ClientFactory.ts], in [src/mcp-proxy.ts]) *)

(** The factory has no state of its own: its computations run over [unit]
    and are lifted into the state of the caller. *)

Module ClientFactory.
Section WithWorld.
Variable w : World.

Local Open Scope eff_scope.

Local Abbreviation M := (Eff.M Event unit).

(** The credential header of an event-stream or HTTP descriptor: the
    bearer token if set, else the API key if set. *)
Definition customHeaders (bearerToken apiKey : option string)
  : option (list (string * string)) :=
  if Js.truthy bearerToken
  then Some [("Authorization", "Bearer " +:+ default "" bearerToken)]
  else if Js.truthy apiKey
       then Some [("X-Api-Key", default "" apiKey)]
       else None.

(** [{...process.env, ...transportConfig.env}] *)
Definition mergedEnv (env : list (string * string)) : list (string * string) :=
  fold_left (fun acc kv => JsMap.set kv.1 kv.2 acc) env (process_env w).

Definition transportType (c : TransportConfig) : string :=
  if isSSEConfig c then "sse"
  else if isStdioConfig c then "stdio"
  else if isHttpConfig c then "http"
  else "unknown".

(** The body of the [try] of [createClient]: the transport, or the
    exception of [new URL]. *)
Definition buildTransport (name : string) (c : TransportConfig)
  : M (option Transport) :=
  match tc_type c with
  | SSEConfig url bearerToken apiKey =>
      if url_parses w url
      then Eff.ret (Some (SSEClientTransport url
                            (default [] (customHeaders bearerToken apiKey))))
      else Eff.throw (Js.mkExn "TypeError" None "Invalid URL")
  | StdioConfig command args env =>
      Eff.ret (Some (StdioClientTransport command args (mergedEnv env)))
  | HttpConfig url bearerToken apiKey =>
      if url_parses w url
      then Eff.ret (Some (StreamableHTTPClientTransport url
                            (default [] (customHeaders bearerToken apiKey))))
      else Eff.throw (Js.mkExn "TypeError" None "Invalid URL")
  | OtherTransport =>
      Eff.emit (EvConsoleError
        ("Invalid or unknown transport type in configuration for server: " +:+ name)
        None) ;;;
      Eff.ret None
  end.

(** [createClient]; [count] only names the [Client] object it builds. *)
Definition createClient (name : string) (transportConfig : TransportConfig)
    (count : nat) : M (option (Handle * Transport)) :=
  transport <- Eff.try_catch (buildTransport name transportConfig)
    (fun error =>
       Eff.emit (EvConsoleError
         ("Failed to create transport " +:+ transportType transportConfig
            +:+ " to " +:+ name +:+ ":") (Some error)) ;;;
       Eff.ret None) ;;
  match transport with
  | None =>
      Eff.emit (EvConsoleWarn ("Transport for " +:+ name +:+ " not available.")) ;;;
      Eff.ret None
  | Some tr => Eff.ret (Some (new_client w name count, tr))
  end.

Definition waitFor : Z := 2500.
Definition retries : nat := 3.

(** The [while (retry)] loop for one server; [fuel] bounds the number of
    iterations and [retries] is always enough ([connectLoop_fuel]). *)
Fixpoint connectLoop (fuel : nat) (name : string) (transportConfig : TransportConfig)
    (count : nat) (clients : list ConnectedClient)
  : M (list ConnectedClient) :=
  match fuel with
  | O => Eff.ret clients
  | Datatypes.S fuel' =>
      created <- createClient name transportConfig count ;;
      match created with
      | None => Eff.ret clients
      | Some (client, transport) =>
          Eff.try_catch
            (Eff.await (EvConnect name count client) (settle (connect w name count)) ;;;
             Eff.ret (clients ++ [mkConnectedClient client name]))
            (fun error =>
               Eff.emit (EvConsoleError ("Failed to connect to " +:+ name +:+ ":")
                           (Some error)) ;;;
               let count := Datatypes.S count in
               let retry := (count <? retries)%nat in
               if retry then
                 Eff.try_catch
                   (Eff.await (EvClientClose client) (settle (client_close w client)))
                   (fun _ => Eff.ret tt) ;;;
                 Eff.await (EvSleep waitFor) (inr tt) ;;;
                 connectLoop fuel' name transportConfig count clients
               else Eff.ret clients)
      end
  end.

(** The [for ... of Object.entries(mcpServers)] loop, threading the
    [clients] array. *)
Fixpoint connectAll (mcpServers : list (string * TransportConfig))
    (clients : list ConnectedClient) : M (list ConnectedClient) :=
  match mcpServers with
  | [] => Eff.ret clients
  | (name, transportConfig) :: rest =>
      clients <- connectLoop retries name transportConfig 0 clients ;;
      connectAll rest clients
  end.

Definition createMcpClients (mcpServers : list (string * TransportConfig))
  : M (list ConnectedClient) :=
  connectAll mcpServers [].
End WithWorld.
End ClientFactory.

(** ** The proxy service ([core/ProxyService.ts], in [src/mcp-proxy.ts]) *)

Module ProxyService.

Record ToolEntry : Type := mkToolEntry {
  client : ConnectedClient;
  toolInfo : Tool
}.

(** The private fields of the service. *)
Record State : Type := mkState {
  currentConnectedClients : list ConnectedClient;
  toolToClientMap : JsMap.t ToolEntry;
  resourceToClientMap : JsMap.t ConnectedClient;
  promptToClientMap : JsMap.t ConnectedClient;
  currentToolConfig : ToolConfig
}.

Definition initial : State :=
  mkState [] JsMap.empty JsMap.empty JsMap.empty (mkToolConfig ∅).

Definition set_currentToolConfig (c : ToolConfig) (s : State) : State :=
  mkState (currentConnectedClients s) (toolToClientMap s) (resourceToClientMap s)
          (promptToClientMap s) c.
Definition set_currentConnectedClients (l : list ConnectedClient) (s : State) : State :=
  mkState l (toolToClientMap s) (resourceToClientMap s) (promptToClientMap s)
          (currentToolConfig s).
Definition set_toolToClientMap (m : JsMap.t ToolEntry) (s : State) : State :=
  mkState (currentConnectedClients s) m (resourceToClientMap s) (promptToClientMap s)
          (currentToolConfig s).
Definition set_resourceToClientMap (m : JsMap.t ConnectedClient) (s : State) : State :=
  mkState (currentConnectedClients s) (toolToClientMap s) m (promptToClientMap s)
          (currentToolConfig s).
Definition set_promptToClientMap (m : JsMap.t ConnectedClient) (s : State) : State :=
  mkState (currentConnectedClients s) (toolToClientMap s) (resourceToClientMap s) m
          (currentToolConfig s).

(** [String(serverConf.active)] *)
Definition String_of_active (a : option ActiveVal) : string :=
  match a with
  | None => "undefined"
  | Some (ABool true) => "true"
  | Some (ABool false) => "false"
  | Some (AStr s) => s
  end.

(** [!(serverConf.active === false ||
       String(serverConf.active).toLowerCase() === 'false')] *)
Definition isActive (serverConf : TransportConfig) : bool :=
  negb ((match tc_active serverConf with Some (ABool false) => true | _ => false end)
        || bool_decide (Js.toLowerCase (String_of_active (tc_active serverConf)) = "false")).

(** [activeServersConfig[key]] *)
Fixpoint prop_get {T} (key : string) (obj : list (string * T)) : option T :=
  match obj with
  | [] => None
  | (k, v) :: obj' => if decide (k = key) then Some v else prop_get key obj'
  end.

(** [newClientKeys.has(name)] for a set built from a list of keys *)
Definition has_key (keys : list string) (name : string) : bool :=
  bool_decide (name ∈ keys).

(** [error?.name === 'McpError' && error?.code === -32601] *)
Definition isMethodNotFound (error : Js.Exn) : bool :=
  bool_decide (Js.ex_name error = "McpError")
  && bool_decide (Js.ex_code error = Some (-32601)%Z).

(** [!toolSettings || toolSettings.enabled !== false] *)
Definition isEnabled (toolSettings : option ToolSettings) : bool :=
  match toolSettings with
  | None => true
  | Some ts => negb (bool_decide (enabled ts = Some false))
  end.

Section WithWorld.
Variable w : World.
Local Open Scope eff_scope.

Local Abbreviation M := (Eff.M Event State).

(** The body of the loop over [result.tools]. *)
Definition registerTool (connectedClient : ConnectedClient) (tool : Tool) : M unit :=
  st <- Eff.get ;;
  let qualifiedName := qualifiedName (cc_name connectedClient) (tool_name tool) in
  let toolSettings := tools (currentToolConfig st) !! qualifiedName in
  if isEnabled toolSettings
  then Eff.modify (fun st =>
         set_toolToClientMap
           (JsMap.set qualifiedName (mkToolEntry connectedClient tool)
                      (toolToClientMap st)) st)
  else Eff.ret tt.

(** The discovery failure handler shared by the three [catch] blocks. *)
Definition discoveryFailed (kind : string) (connectedClient : ConnectedClient)
    (error : Js.Exn) : M unit :=
  if negb (isMethodNotFound error)
  then Eff.emit (EvConsoleError
         ("Error fetching " +:+ kind +:+ " from " +:+ cc_name connectedClient +:+ ":")
         (Some error))
  else Eff.ret tt.

Definition discoverTools (connectedClient : ConnectedClient) : M unit :=
  Eff.try_catch
    (result <- Eff.await (EvRequest connectedClient tools_list_m)
                         (tools_list w connectedClient) ;;
     match result with
     | Some (tool :: rest) =>
         Eff.for_of (tool :: rest) (registerTool connectedClient)
     | _ => Eff.ret tt
     end)
    (discoveryFailed "tools" connectedClient).

Definition discoverResources (connectedClient : ConnectedClient) : M unit :=
  Eff.try_catch
    (result <- Eff.await (EvRequest connectedClient resources_list_m)
                         (resources_list w connectedClient) ;;
     match result with
     | Some resources =>
         Eff.for_of resources (fun resource =>
           Eff.modify (fun st =>
             set_resourceToClientMap
               (JsMap.set (res_uri resource) connectedClient
                          (resourceToClientMap st)) st))
     | None => Eff.ret tt
     end)
    (discoveryFailed "resources" connectedClient).

Definition discoverPrompts (connectedClient : ConnectedClient) : M unit :=
  Eff.try_catch
    (result <- Eff.await (EvRequest connectedClient prompts_list_m)
                         (prompts_list w connectedClient) ;;
     match result with
     | Some prompts =>
         Eff.for_of prompts (fun prompt =>
           Eff.modify (fun st =>
             set_promptToClientMap
               (JsMap.set (prompt_name prompt) connectedClient
                          (promptToClientMap st)) st))
     | None => Eff.ret tt
     end)
    (discoveryFailed "prompts" connectedClient).

(** Lines 150-183: the three maps are cleared, then refilled client by
    client. *)
Definition aggregate : M unit :=
  Eff.modify (set_toolToClientMap JsMap.empty) ;;;
  Eff.modify (set_resourceToClientMap JsMap.empty) ;;;
  Eff.modify (set_promptToClientMap JsMap.empty) ;;;
  st <- Eff.get ;;
  Eff.for_of (currentConnectedClients st) (fun connectedClient =>
    discoverTools connectedClient ;;;
    discoverResources connectedClient ;;;
    discoverPrompts connectedClient).

(** The [Promise.all] over [clientsToRemove]: the cleanups are started in
    list order, each with its own [try]/[catch]. *)
Definition cleanupAll (clientsToRemove : list ConnectedClient) : M unit :=
  Eff.for_of clientsToRemove (fun c =>
    Eff.try_catch
      (Eff.await (EvCleanup c) (settle (transport_close w c)))
      (fun error =>
         Eff.emit (EvConsoleError ("  Error cleaning up client " +:+ cc_name c +:+ ":")
                     (Some error)))).

Definition updateBackendConnections (newServerConfig : option Config)
    (newToolConfig : option ToolConfig) : M unit :=
  configToUse <- match newServerConfig with
                 | Some c => Eff.ret c
                 | None => Eff.await EvLoadConfig (inr (loadConfig w))
                 end ;;
  toolConfigToUse <- match newToolConfig with
                     | Some c => Eff.ret c
                     | None => Eff.await EvLoadToolConfig (inr (loadToolConfig w))
                     end ;;
  Eff.modify (set_currentToolConfig toolConfigToUse) ;;;
  let activeServersConfig :=
    filter (fun kv => isActive kv.2 = true) (mcpServers configToUse) in
  st <- Eff.get ;;
  let newClientKeys := map fst activeServersConfig in
  let currentClientKeys := map cc_name (currentConnectedClients st) in
  let clientsToRemove :=
    filter (fun c => has_key newClientKeys (cc_name c) = false)
           (currentConnectedClients st) in
  let clientsToKeep :=
    filter (fun c => has_key newClientKeys (cc_name c) = true)
           (currentConnectedClients st) in
  let keysToAdd :=
    filter (fun key => has_key currentClientKeys key = false)
           (map fst activeServersConfig) in
  (if (0 <? length clientsToRemove)%nat
   then cleanupAll clientsToRemove else Eff.ret tt) ;;;
  newlyConnectedClients <-
    (if (0 <? length keysToAdd)%nat
     then
       let configToAdd :=
         omap (fun key => pair key <$> prop_get key activeServersConfig) keysToAdd in
       Eff.lift (ClientFactory.createMcpClients w configToAdd) tt
     else Eff.ret []) ;;
  Eff.modify (set_currentConnectedClients (clientsToKeep ++ newlyConnectedClients)) ;;;
  aggregate.
End WithWorld.

(** *** Request handlers: synchronous reads of the state *)

(** [request.params] of [tools/call] *)
Record CallToolParams : Type := mkCallToolParams {
  ctp_name : string;
  ctp_arguments : option (list (string * Js.JSON));
  ctp_meta : option Js.JSON
}.

(** The request a handler forwards, the returned promise being that of the
    backend: [client.request({method, params: {name, arguments, _meta}})]. *)
Record ToolCall : Type := mkToolCall {
  fw_client : ConnectedClient;
  fw_method : string;
  fw_name : string;
  fw_arguments : list (string * Js.JSON);
  fw_meta : option Js.JSON
}.

(** [toolOverrides[key]?.exposedName || key] *)
Definition exposedNameOf (toolOverrides : gmap string ToolSettings) (key : string)
  : string :=
  Js.or_str (toolOverrides !! key ≫= exposedName) key.

(** [overrideSettings?.exposedDescription || toolInfo.description] *)
Definition exposedDescriptionOf (toolOverrides : gmap string ToolSettings)
    (key : string) (toolInfo : Tool) : option string :=
  Js.or_opt (toolOverrides !! key ≫= exposedDescription) (tool_description toolInfo).

Definition _handleListTools (st : State) : list Tool :=
  let toolOverrides := tools (currentToolConfig st) in
  map (fun kv =>
         mkTool (exposedNameOf toolOverrides kv.1)
                (exposedDescriptionOf toolOverrides kv.1 (toolInfo kv.2))
                (tool_inputSchema (toolInfo kv.2)))
      (toolToClientMap st).

(** The scan of [_handleCallTool], leaving the loop at the first match. *)
Fixpoint scanEntries (toolOverrides : gmap string ToolSettings)
    (requestedExposedName : string) (entries : list (string * ToolEntry))
  : option (string * ToolEntry) :=
  match entries with
  | [] => None
  | (key, entry) :: rest =>
      let currentExposedName := exposedNameOf toolOverrides key in
      if decide (currentExposedName = requestedExposedName)
      then Some (key, entry)
      else scanEntries toolOverrides requestedExposedName rest
  end.

Definition UnknownTool (requestedExposedName : string) : Js.Exn :=
  Js.Error ("Unknown or disabled tool: " +:+ requestedExposedName).

Definition _handleCallTool (st : State) (params : CallToolParams)
  : Js.Exn + ToolCall :=
  let requestedExposedName := ctp_name params in
  let toolOverrides := tools (currentToolConfig st) in
  match scanEntries toolOverrides requestedExposedName (toolToClientMap st) with
  | Some (originalQualifiedName, mapEntry) =>
      if decide (originalQualifiedName = "")
      then inl (UnknownTool requestedExposedName)
      else inr (mkToolCall (client mapEntry) "tools/call"
                  (tool_name (toolInfo mapEntry))
                  (default [] (ctp_arguments params))
                  (ctp_meta params))
  | None => inl (UnknownTool requestedExposedName)
  end.

(** An entry of the exported state. *)
Record ToolState : Type := mkToolState {
  ts_name : string;
  ts_serverName : string;
  ts_description : option string
}.

Definition getCurrentProxyState (st : State) : list ToolState :=
  map (fun kv =>
         mkToolState (tool_name (toolInfo kv.2))
                     (Js.or_str (Some (cc_name (client kv.2))) "Unknown")
                     (tool_description (toolInfo kv.2)))
      (toolToClientMap st).

Definition _handleGetPrompt (st : State) (name : string)
  : Js.Exn + ConnectedClient :=
  match JsMap.get name (promptToClientMap st) with
  | Some clientForPrompt => inr clientForPrompt
  | None => inl (Js.Error ("Unknown prompt: " +:+ name))
  end.

Definition _handleReadResource (st : State) (uri : string)
  : Js.Exn + ConnectedClient :=
  match JsMap.get uri (resourceToClientMap st) with
  | Some clientForResource => inr clientForResource
  | None => inl (Js.Error ("Unknown resource: " +:+ uri))
  end.

Definition _handleListPrompts (st : State) : list Prompt :=
  map (fun kv => mkPrompt kv.1 (Some ("[" +:+ cc_name kv.2 +:+ "] Prompt")))
      (promptToClientMap st).

Definition _handleListResources (st : State) : list Resource :=
  map (fun kv => mkResource kv.1 ("[" +:+ cc_name kv.2 +:+ "] Resource") None)
      (resourceToClientMap st).

(** What the routing handlers read. *)
Definition routing (st : State)
  : JsMap.t ToolEntry * JsMap.t ConnectedClient * JsMap.t ConnectedClient :=
  (toolToClientMap st, resourceToClientMap st, promptToClientMap st).
End ProxyService.

(** ** [services/HttpService.ts]: the event-stream endpoints *)

Module HttpService.

(** An [SSEServerTransport] object: its identity and the session id the SDK
    gave it. *)
Record SSEServerTransport : Type := mkSSEServerTransport {
  handle : nat;
  sessionId : string
}.

(** The parts of an inbound request the two handlers read. *)
Record Request : Type := mkRequest {
  authorization : option string;      (* req.headers['authorization'] *)
  x_api_key : option string;          (* req.headers['x-api-key'] *)
  query_key : option string;          (* req.query.key *)
  query_session_id : option string;   (* req.query.session_id *)
  params_sessionId : option string;   (* req.params.sessionId *)
  query_sessionId : option string     (* req.query.sessionId *)
}.

(** The module constants read from the process environment, and the outcome
    of what the handlers call into. *)
Record Env : Type := mkEnv {
  allowedKeys : gset string;
  allowedTokens : gset string;
  (** [new SSEServerTransport("/message", res)] *)
  created : SSEServerTransport;
  (** [this._mcpServer.connect(transport)] *)
  server_connect : SSEServerTransport -> option Js.Exn;
  (** [transport.close()] *)
  close_result : SSEServerTransport -> option Js.Exn;
  (** [transport.handlePostMessage(req, res, req.body)] *)
  handlePostMessage : SSEServerTransport -> option Js.Exn;
  (** [res.headersSent] when a failure is handled *)
  headersSent : bool
}.

Inductive Ev : Type :=
| Respond (status : nat) (body : string)
| TransportClose (t : SSEServerTransport)
| ServerConnect (t : SSEServerTransport)
| HandlePostMessage (t : SSEServerTransport)
| ConsoleWarn (msg : string)
| ConsoleError (msg : string).

(** The registry [sseTransports]. *)
Record State : Type := mkState {
  sseTransports : JsMap.t SSEServerTransport
}.

Definition is_space (c : ascii) : bool :=
  let n := nat_of_ascii c in
  ((9 <=? n)%nat && (n <=? 13)%nat) || (n =? 32)%nat.

Fixpoint trimStart (s : string) : string :=
  match s with
  | String c s' => if is_space c then trimStart s' else s
  | EmptyString => EmptyString
  end.

Fixpoint trimEnd (s : string) : string :=
  match s with
  | String c s' =>
      match trimEnd s' with
      | EmptyString => if is_space c then EmptyString else String c EmptyString
      | r => String c r
      end
  | EmptyString => EmptyString
  end.

(** [String.prototype.trim] on ASCII white space. *)
Definition trim (s : string) : string := trimEnd (trimStart s).

Section WithEnv.
Variable env : Env.
Local Open Scope eff_scope.

Local Abbreviation M := (Eff.M Ev State).

Definition authEnabled : bool :=
  (0 <? size (allowedKeys env))%nat || (0 <? size (allowedTokens env))%nat.

(** The bearer-token test of the authentication block. *)
Definition bearerCheck (req : Request) : M bool :=
  match authorization req with
  | Some authHeader =>
      if Js.truthy (Some authHeader) && String.prefix "Bearer " authHeader
      then
        let token :=
          trim (String.substring 7 (String.length authHeader - 7) authHeader) in
        if bool_decide (token ∈ allowedTokens env)
        then Eff.ret true
        else Eff.emit (ConsoleWarn "Unauthorized (Bearer). Invalid Token.") ;;;
             Eff.ret false
      else Eff.ret false
  | None => Eff.ret false
  end.

(** The API-key test, run when the bearer test did not authenticate. *)
Definition apiKeyCheck (req : Request) (authenticated : bool) : M bool :=
  if negb authenticated && (0 <? size (allowedKeys env))%nat
  then
    let providedKey := Js.or_opt (x_api_key req) (query_key req) in
    match providedKey with
    | Some key =>
        if Js.truthy providedKey && bool_decide (key ∈ allowedKeys env)
        then Eff.ret true
        else if Js.truthy providedKey
             then Eff.emit (ConsoleWarn "Unauthorized (API Key). Invalid Key.") ;;;
                  Eff.ret authenticated
             else Eff.ret authenticated
    | None => Eff.ret authenticated
    end
  else Eff.ret authenticated.

(** The authentication gate: [true] when the handler goes on, [false] when
    it has answered 401. *)
Definition authGate (req : Request) : M bool :=
  if authEnabled
  then
    authenticated <- bearerCheck req ;;
    authenticated <- apiKeyCheck req authenticated ;;
    if negb authenticated
    then Eff.emit (ConsoleWarn "Unauthorized. No valid credentials.") ;;;
         Eff.emit (Respond 401 "Unauthorized") ;;;
         Eff.ret false
    else Eff.ret true
  else Eff.ret true.

(** The [onerror] and [onclose] closures installed on a transport: both
    drop [currentSessionId] from the registry when it is there. *)
Definition sessionEnded (currentSessionId : string) : M unit :=
  st <- Eff.get ;;
  if JsMap.has currentSessionId (sseTransports st)
  then Eff.modify (fun st => mkState (JsMap.delete currentSessionId (sseTransports st)))
  else Eff.ret tt.

(** [t.close().catch(...)]: the call, and the log of a rejection. *)
Definition closeAndLog (t : SSEServerTransport) (log : string -> Ev) : M unit :=
  Eff.emit (TransportClose t) ;;;
  match close_result env t with
  | Some _ => Eff.emit (log "error closing SSE transport")
  | None => Eff.ret tt
  end.

(** The [catch] block of [_handleSse], applied to the values the locals
    [clientTransport] and [actualTransportSessionId] hold at the point of
    failure. *)
Definition setupFailed (clientTransport : option SSEServerTransport)
    (actualTransportSessionId : option string) (error : Js.Exn) : M unit :=
  Eff.emit (ConsoleError "Failed during SSE setup or connection") ;;;
  st <- Eff.get ;;
  (match actualTransportSessionId with
   | Some id =>
       if Js.truthy actualTransportSessionId && JsMap.has id (sseTransports st)
       then Eff.modify (fun st => mkState (JsMap.delete id (sseTransports st)))
       else Eff.ret tt
   | None => Eff.ret tt
   end) ;;;
  (match clientTransport with
   | Some t => closeAndLog t ConsoleError
   | None => Eff.ret tt
   end) ;;;
  if negb (headersSent env)
  then Eff.emit (Respond 500 "Failed to establish SSE connection")
  else Eff.ret tt.

(** [_handleSse].  The [try] block can fail at two points, the test of the
    new session id and the awaited [connect]; the handler is applied at
    each. *)
Definition _handleSse (req : Request) : M unit :=
  proceed <- authGate req ;;
  if negb proceed then Eff.ret tt else
  let sessionIdFromClientQuery := query_session_id req in
  st <- Eff.get ;;
  (match sessionIdFromClientQuery with
   | Some claimed =>
       if Js.truthy sessionIdFromClientQuery
       then
         match JsMap.get claimed (sseTransports st) with
         | Some existingTransport =>
             Eff.modify (fun st => mkState (JsMap.delete claimed (sseTransports st))) ;;;
             closeAndLog existingTransport ConsoleWarn
         | None => Eff.ret tt
         end
       else Eff.ret tt
   | None => Eff.ret tt
   end) ;;;
  let clientTransport := created env in
  let actualTransportSessionId := sessionId clientTransport in
  if negb (Js.truthy (Some actualTransportSessionId))
  then setupFailed (Some clientTransport) (Some actualTransportSessionId)
         (Js.Error "Failed to obtain session ID from new SSE transport instance.")
  else
    Eff.modify (fun st =>
      mkState (JsMap.set actualTransportSessionId clientTransport (sseTransports st))) ;;;
    Eff.try_catch
      (Eff.await (ServerConnect clientTransport)
                 (settle (server_connect env clientTransport)))
      (setupFailed (Some clientTransport) (Some actualTransportSessionId)).

Definition _handleMessage (req : Request) : M unit :=
  let sessionId := Js.or_opt (params_sessionId req) (query_sessionId req) in
  match sessionId with
  | Some id =>
      if negb (Js.truthy sessionId)
      then Eff.emit (ConsoleError "POST /message error: Missing sessionId.") ;;;
           Eff.emit (Respond 400 "Missing sessionId in path or query")
      else
        st <- Eff.get ;;
        match JsMap.get id (sseTransports st) with
        | None =>
            Eff.emit (ConsoleError
              ("POST /message error: No active SSE transport for Session ID: " +:+ id)) ;;;
            Eff.emit (Respond 404 ("No active SSE session found for ID " +:+ id))
        | Some transport =>
            Eff.try_catch
              (Eff.await (HandlePostMessage transport)
                         (settle (handlePostMessage env transport)))
              (fun error =>
                 Eff.emit (ConsoleError "Error in SSE transport.handlePostMessage") ;;;
                 if negb (headersSent env)
                 then Eff.emit (Respond 500 "Failed to process message via SSE transport")
                 else Eff.ret tt)
        end
  | None =>
      Eff.emit (ConsoleError "POST /message error: Missing sessionId.") ;;;
      Eff.emit (Respond 400 "Missing sessionId in path or query")
  end.
End WithEnv.
End HttpService.

(** ** The claims in the words of the specification, and notions used to
    state what the code does *)

(** C8, as stated: any two distinct pairs of a backend name and a tool name
    have distinct qualified names. *)
Definition qualified_names_unique : Prop :=
  forall n1 t1 n2 t2 : string,
    (n1, t1) <> (n2, t2) -> qualifiedName n1 t1 <> qualifiedName n2 t2.


(** [createClient] builds a transport for the descriptor: its kind is
    recognised and, where it has a URL, [new URL] accepts it. *)
Definition constructible (w : World) (c : TransportConfig) : bool :=
  match tc_type c with
  | SSEConfig url _ _ => url_parses w url
  | StdioConfig _ _ _ => true
  | HttpConfig url _ _ => url_parses w url
  | OtherTransport => false
  end.

(** The retry loop of one server, run as [createMcpClients] starts it. *)
Definition serverRun (w : World) (kv : string * TransportConfig) :=
  ClientFactory.connectLoop w ClientFactory.retries kv.1 kv.2 0 [] tt.

Definition serverClients (w : World) (kv : string * TransportConfig)
  : list ConnectedClient :=
  match Eff.outcome (serverRun w kv) with
  | inr l => l
  | inl _ => []
  end.

Definition serverEvents (w : World) (kv : string * TransportConfig) : list Event :=
  Eff.events (serverRun w kv).

(** The server an event of the factory is about, if it names one. *)
Definition connect_name (e : Event) : option string :=
  match e with
  | EvConnect name _ _ => Some name
  | _ => None
  end.

(** The client whose [cleanup] an event invokes. *)
Definition teardown_of (e : Event) : option ConnectedClient :=
  match e with
  | EvCleanup c => Some c
  | _ => None
  end.

(** The discovery request an event sends. *)
Definition request_of (e : Event) : option (ConnectedClient * Method) :=
  match e with
  | EvRequest c m => Some (c, m)
  | _ => None
  end.

(** What an event of the factory may be: never a teardown, and a connection
    attempt only for the server at hand. *)
Definition factory_event (name : string) (e : Event) : Prop :=
  teardown_of e = None /\ request_of e = None
  /\ (connect_name e = None \/ connect_name e = Some name).


(** *** Aggregation, one discovery call at a time *)

(** The discovery call of one kind to one client, with its [catch]. *)
Definition discover (w : World) (m : Method) (c : ConnectedClient)
  : Eff.M Event ProxyService.State unit :=
  match m with
  | tools_list_m => ProxyService.discoverTools w c
  | resources_list_m => ProxyService.discoverResources w c
  | prompts_list_m => ProxyService.discoverPrompts w c
  end.

(** The exception a discovery call ends with, if it fails. *)
Definition failure (w : World) (m : Method) (c : ConnectedClient) : option Js.Exn :=
  match m with
  | tools_list_m => match tools_list w c with inl e => Some e | inr _ => None end
  | resources_list_m => match resources_list w c with inl e => Some e | inr _ => None end
  | prompts_list_m => match prompts_list w c with inl e => Some e | inr _ => None end
  end.

Definition kind_name (m : Method) : string :=
  match m with
  | tools_list_m => "tools"
  | resources_list_m => "resources"
  | prompts_list_m => "prompts"
  end.

(** The discovery calls of an aggregation pass, in the order they are made. *)
Definition discoverySteps (clients : list ConnectedClient)
  : list (Method * ConnectedClient) :=
  flat_map (fun c => [(tools_list_m, c); (resources_list_m, c); (prompts_list_m, c)])
           clients.

(** The state one discovery call leaves. *)
Definition applyStep (w : World) (st : ProxyService.State)
    (step : Method * ConnectedClient) : ProxyService.State :=
  Eff.final (discover w step.1 step.2 st).

(** The state with the three maps cleared. *)
Definition cleared (st : ProxyService.State) : ProxyService.State :=
  ProxyService.set_promptToClientMap JsMap.empty
    (ProxyService.set_resourceToClientMap JsMap.empty
       (ProxyService.set_toolToClientMap JsMap.empty st)).

(** The state after the maps were cleared and the given discovery calls
    were answered. *)
Definition refilled (w : World) (st : ProxyService.State)
    (done : list (Method * ConnectedClient)) : ProxyService.State :=
  fold_left (applyStep w) done (cleared st).

(** [Map.set] for each pair in turn. *)
Definition set_all {V} (kvs : list (string * V)) (m : JsMap.t V) : JsMap.t V :=
  fold_left (fun m kv => JsMap.set kv.1 kv.2 m) kvs m.

(** The tools a client reports, the resources, the prompts: nothing when the
    call fails. *)
Definition reportedTools (w : World) (c : ConnectedClient) : list Tool :=
  match tools_list w c with inr (Some l) => l | _ => [] end.
Definition reportedResources (w : World) (c : ConnectedClient) : list Resource :=
  match resources_list w c with inr (Some l) => l | _ => [] end.
Definition reportedPrompts (w : World) (c : ConnectedClient) : list Prompt :=
  match prompts_list w c with inr (Some l) => l | _ => [] end.

(** The entries a client contributes to each map, in order. *)
Definition toolEntries (w : World) (tc : ToolConfig) (c : ConnectedClient)
  : list (string * ProxyService.ToolEntry) :=
  omap (fun tool =>
          let q := qualifiedName (cc_name c) (tool_name tool) in
          if ProxyService.isEnabled (tools tc !! q)
          then Some (q, ProxyService.mkToolEntry c tool) else None)
       (reportedTools w c).
Definition resourceEntries (w : World) (c : ConnectedClient)
  : list (string * ConnectedClient) :=
  map (fun r => (res_uri r, c)) (reportedResources w c).
Definition promptEntries (w : World) (c : ConnectedClient)
  : list (string * ConnectedClient) :=
  map (fun p => (prompt_name p, c)) (reportedPrompts w c).

(** The state an aggregation pass leaves, written out. *)
Definition aggregated (w : World) (st : ProxyService.State) : ProxyService.State :=
  let clients := ProxyService.currentConnectedClients st in
  let tc := ProxyService.currentToolConfig st in
  ProxyService.mkState clients
    (set_all (flat_map (toolEntries w tc) clients) JsMap.empty)
    (set_all (flat_map (resourceEntries w) clients) JsMap.empty)
    (set_all (flat_map (promptEntries w) clients) JsMap.empty)
    tc.

(** What the [catch] of a discovery call writes to the console. *)
Definition failureLog (w : World) (m : Method) (c : ConnectedClient)
  : list Event :=
  match failure w m c with
  | Some e =>
      if ProxyService.isMethodNotFound e then []
      else [EvConsoleError
              ("Error fetching " +:+ kind_name m +:+ " from " +:+ cc_name c +:+ ":")
              (Some e)]
  | None => []
  end.

(** *** Reconciliation, phase by phase *)

(** The active entries of a configuration. *)
Definition activeServers (cfg : Config) : list (string * TransportConfig) :=
  filter (fun kv => ProxyService.isActive kv.2 = true) (mcpServers cfg).

Definition clientsToRemove (cfg : Config) (st : ProxyService.State)
  : list ConnectedClient :=
  filter (fun c => ProxyService.has_key (map fst (activeServers cfg)) (cc_name c) = false)
         (ProxyService.currentConnectedClients st).

Definition clientsToKeep (cfg : Config) (st : ProxyService.State)
  : list ConnectedClient :=
  filter (fun c => ProxyService.has_key (map fst (activeServers cfg)) (cc_name c) = true)
         (ProxyService.currentConnectedClients st).

Definition keysToAdd (cfg : Config) (st : ProxyService.State) : list string :=
  filter (fun key =>
            ProxyService.has_key
              (map cc_name (ProxyService.currentConnectedClients st)) key = false)
         (map fst (activeServers cfg)).

Definition configToAdd (cfg : Config) (st : ProxyService.State)
  : list (string * TransportConfig) :=
  omap (fun key => pair key <$> ProxyService.prop_get key (activeServers cfg))
       (keysToAdd cfg st).

(** The events of one cleanup of the teardown. *)
Definition cleanupEvents (w : World) (c : ConnectedClient) : list Event :=
  EvCleanup c ::
  match transport_close w c with
  | Some e => [EvConsoleError ("  Error cleaning up client " +:+ cc_name c +:+ ":") (Some e)]
  | None => []
  end.

(** The configurations a call works with. *)
Definition configInUse (w : World) (newServerConfig : option Config) : Config :=
  default (loadConfig w) newServerConfig.
Definition toolConfigInUse (w : World) (newToolConfig : option ToolConfig) : ToolConfig :=
  default (loadToolConfig w) newToolConfig.

(** The state once the connection set is settled, before the maps are
    cleared: the new tool configuration, the kept clients followed by the
    newly connected ones, and still the maps of the generation before. *)
Definition reconnected (w : World) (cfg : Config) (tc : ToolConfig)
    (st : ProxyService.State) : ProxyService.State :=
  ProxyService.set_currentConnectedClients
    (clientsToKeep cfg st ++ flat_map (serverClients w) (configToAdd cfg st))
    (ProxyService.set_currentToolConfig tc st).

(** The events before the aggregation: the loads, the teardown and the
    connection attempts. *)
Definition loadEvents (newServerConfig : option Config)
    (newToolConfig : option ToolConfig) : list Event :=
  (match newServerConfig with None => [EvLoadConfig] | Some _ => [] end)
  ++ (match newToolConfig with None => [EvLoadToolConfig] | Some _ => [] end).

Definition connectionEvents (w : World) (cfg : Config) (st : ProxyService.State)
  : list Event :=
  flat_map (cleanupEvents w) (clientsToRemove cfg st)
  ++ flat_map (serverEvents w) (configToAdd cfg st).

(** *** Routing *)

(** Every key of the tool map is the qualified name of its entry. *)
Definition well_keyed (st : ProxyService.State) : Prop :=
  Forall (fun kv =>
            kv.1 = qualifiedName (cc_name (ProxyService.client kv.2))
                                 (tool_name (ProxyService.toolInfo kv.2)))
         (ProxyService.toolToClientMap st).

(** The keys of a list in the order of their first occurrence, those in
    [seen] left out. *)
Fixpoint first_occurrences (seen : list string) (l : list string) : list string :=
  match l with
  | [] => []
  | k :: l' =>
      if decide (k ∈ seen) then first_occurrences seen l'
      else k :: first_occurrences (k :: seen) l'
  end.

(** The request [_handleCallTool] forwards for a tool-map entry. *)
Definition forwarded (entry : ProxyService.ToolEntry)
    (params : ProxyService.CallToolParams) : ProxyService.ToolCall :=
  ProxyService.mkToolCall (ProxyService.client entry) "tools/call"
    (tool_name (ProxyService.toolInfo entry))
    (default [] (ProxyService.ctp_arguments params))
    (ProxyService.ctp_meta params).

(** The name a tool-map key is exposed under in a state. *)
Definition exposedIn (st : ProxyService.State) (key : string) : string :=
  ProxyService.exposedNameOf (tools (ProxyService.currentToolConfig st)) key.

(** C2, as stated: at every suspension point of a reconciliation, a reader
    finds the three routing maps either as they were before it or as they
    are after it. *)
Definition no_partial_visibility (w : World) (newServerConfig : option Config)
    (newToolConfig : option ToolConfig) (st : ProxyService.State) : Prop :=
  let r := ProxyService.updateBackendConnections w newServerConfig newToolConfig st in
  forall ev s,
    (ev, s) ∈ Eff.trace r -> is_await ev = true ->
    ProxyService.routing s = ProxyService.routing st
    \/ ProxyService.routing s = ProxyService.routing (Eff.final r).

(** ** Concrete scenarios *)

Module Scenario.

Definition stdio (command : string) : TransportConfig :=
  mkTransportConfig None None (StdioConfig command [] []).

Definition ping : Tool := mkTool "ping" (Some "Ping the server") Js.JNull.
Definition pong : Tool := mkTool "pong" None Js.JNull.
Definition t : Tool := mkTool "t" None Js.JNull.
Definition u : Tool := mkTool "u" (Some "The tool u") Js.JNull.

Definition methodNotFound : Js.Exn :=
  Js.mkExn "McpError" (Some (-32601)%Z) "MCP error -32601: Method not found".
Definition timeout : Js.Exn :=
  Js.mkExn "McpError" (Some (-32001)%Z) "MCP error -32001: Request timed out".
Definition refused : Js.Exn := Js.Error "connect ECONNREFUSED".

Fixpoint name_code (s : string) : nat :=
  match s with
  | EmptyString => 0
  | String c s' => nat_of_ascii c + name_code s'
  end.

(** Four backends: [srv] with the tools [ping] and [pong], [a] with [t],
    [b] with [u], and [down], whose handshake always fails.  None lists
    resources; listing prompts times out. *)
Definition world : World :=
  {| process_env := [("PATH", "/usr/bin")];
     url_parses := fun _ => true;
     new_client := fun name count => (10 * name_code name + count)%nat;
     connect := fun name _ => if decide (name = "down") then Some refused else None;
     client_close := fun _ => None;
     transport_close := fun _ => None;
     tools_list := fun c =>
       if decide (cc_name c = "srv") then inr (Some [ping; pong])
       else if decide (cc_name c = "a") then inr (Some [t])
       else if decide (cc_name c = "b") then inr (Some [u])
       else inl methodNotFound;
     resources_list := fun _ => inl methodNotFound;
     prompts_list := fun _ => inl timeout;
     loadConfig := mkConfig [];
     loadToolConfig := mkToolConfig ∅ |}.

(** Two backends whose tools share one qualified name: [a] with the tool
    [b--c], and [a--b] with the tool [c]. *)
Definition world_collision : World :=
  {| process_env := [];
     url_parses := fun _ => true;
     new_client := fun name count => (10 * name_code name + count)%nat;
     connect := fun _ _ => None;
     client_close := fun _ => None;
     transport_close := fun _ => None;
     tools_list := fun c =>
       if decide (cc_name c = "a") then inr (Some [mkTool "b--c" None Js.JNull])
       else inr (Some [mkTool "c" None Js.JNull]);
     resources_list := fun _ => inl methodNotFound;
     prompts_list := fun _ => inl methodNotFound;
     loadConfig := mkConfig [];
     loadToolConfig := mkToolConfig ∅ |}.
Definition cfg_collision : Config :=
  mkConfig [("a", stdio "a-cmd"); ("a--b", stdio "ab-cmd")].

(** [srv--ping] is given the empty string as exposed name and description. *)
Definition blank : ToolConfig :=
  mkToolConfig {[ "srv--ping" := mkToolSettings None (Some "") (Some "") ]}.

Definition cfg_srv : Config := mkConfig [("srv", stdio "srv-cmd")].
Definition cfg_srv_a : Config :=
  mkConfig [("srv", stdio "srv-cmd"); ("a", stdio "a-cmd")].
Definition cfg_ab : Config := mkConfig [("a", stdio "a-cmd"); ("b", stdio "b-cmd")].
Definition cfg_down : Config :=
  mkConfig [("a", stdio "a-cmd"); ("down", stdio "down-cmd"); ("b", stdio "b-cmd")].

Definition no_overrides : ToolConfig := mkToolConfig ∅.

(** [b--u] is exposed under the qualified name of [a]'s tool. *)
Definition collide : ToolConfig :=
  mkToolConfig {[ "b--u" := mkToolSettings None (Some "a--t") None ]}.

(** [srv--ping] is renamed and described anew. *)
Definition rename : ToolConfig :=
  mkToolConfig
    {[ "srv--ping" := mkToolSettings None (Some "p") (Some "Renamed ping") ]}.

(** [srv--ping] is disabled. *)
Definition disable : ToolConfig :=
  mkToolConfig {[ "srv--ping" := mkToolSettings (Some false) None None ]}.

(** [srv--ping] is disabled and [srv--pong] takes its name. *)
Definition shadow : ToolConfig :=
  mkToolConfig
    (<[ "srv--ping" := mkToolSettings (Some false) None None ]>
       {[ "srv--pong" := mkToolSettings None (Some "srv--ping") None ]}).

(** The state a first reconciliation leaves. *)
Definition after (cfg : Config) (tc : ToolConfig) : ProxyService.State :=
  Eff.final (ProxyService.updateBackendConnections world (Some cfg) (Some tc)
               ProxyService.initial).

(** An event-stream registry with the session [abc], bearer-token
    authentication, and an SDK that names the next transport [uuid-2]. *)
Definition s1 : HttpService.SSEServerTransport :=
  HttpService.mkSSEServerTransport 1 "abc".
Definition s2 : HttpService.SSEServerTransport :=
  HttpService.mkSSEServerTransport 2 "uuid-2".
Definition sse_env : HttpService.Env :=
  {| HttpService.allowedKeys := ∅;
     HttpService.allowedTokens := {[ "secret" ]};
     HttpService.created := s2;
     HttpService.server_connect := fun _ => None;
     HttpService.close_result := fun _ => None;
     HttpService.handlePostMessage := fun _ => None;
     HttpService.headersSent := true |}.
Definition sse_state : HttpService.State := HttpService.mkState [("abc", s1)].
Definition sse_request : HttpService.Request :=
  HttpService.mkRequest (Some "Bearer secret") None None (Some "abc") None None.
Definition post_request (id : string) : HttpService.Request :=
  HttpService.mkRequest (Some "Bearer secret") None None None (Some id) None.

Definition srv : ConnectedClient := mkConnectedClient 3470 "srv".
Definition a : ConnectedClient := mkConnectedClient 970 "a".
Definition b : ConnectedClient := mkConnectedClient 980 "b".

End Scenario.

(** * Properties *)

(** ** Strings and qualified names *)

Section QualifiedNames.

Lemma length_append (s1 s2 : string) :
  String.length (s1 +:+ s2) = (String.length s1 + String.length s2)%nat.
Proof. induction s1 as [|c s1 IH]; simpl; [reflexivity | now rewrite IH]. Qed.

Lemma append_inj_r (s1 s2 s : string) : s1 +:+ s = s2 +:+ s -> s1 = s2.
Proof.
  revert s2. induction s1 as [|c s1 IH]; intros [|c2 s2] H.
  - reflexivity.
  - apply (f_equal String.length) in H. rewrite !length_append in H. simpl in H. lia.
  - apply (f_equal String.length) in H. rewrite !length_append in H. simpl in H. lia.
  - simpl in H. injection H as -> H. f_equal. now apply IH.
Qed.

Lemma append_inj_l (s s1 s2 : string) : s +:+ s1 = s +:+ s2 -> s1 = s2.
Proof. induction s as [|c s IH]; simpl; intros H; [exact H | injection H; auto]. Qed.

Lemma qualifiedName_nonempty (n t : string) : qualifiedName n t <> "".
Proof.
  unfold qualifiedName. intros H. apply (f_equal String.length) in H.
  rewrite length_append in H. simpl in H. lia.
Qed.

(** Two backends never share the qualified name of one tool name. *)
Lemma qualifiedName_inj_backend (n1 n2 t : string) :
  qualifiedName n1 t = qualifiedName n2 t -> n1 = n2.
Proof. unfold qualifiedName. apply append_inj_r. Qed.

(** One backend never gives two tool names the same qualified name. *)
Lemma qualifiedName_inj_tool (n t1 t2 : string) :
  qualifiedName n t1 = qualifiedName n t2 -> t1 = t2.
Proof.
  unfold qualifiedName. intros H.
  apply append_inj_l in H. now apply (append_inj_l "--") in H.
Qed.

(** Backend names without a hyphen make the qualified name determine both
    parts: the backend name is what precedes the first hyphen. *)
Lemma qualifiedName_inj_hyphen_free (n1 t1 n2 t2 : string) :
  hyphen_free n1 = true -> hyphen_free n2 = true ->
  qualifiedName n1 t1 = qualifiedName n2 t2 -> n1 = n2 /\ t1 = t2.
Proof.
  unfold qualifiedName. revert n2.
  induction n1 as [|c1 n1 IH]; intros [|c2 n2] H1 H2 H; simpl in *.
  - split; [reflexivity | now injection H].
  - injection H as <- _. now rewrite decide_True in H2.
  - injection H as -> _. now rewrite decide_True in H1.
  - injection H as -> H.
    destruct (decide (c2 = "-"%char)); [discriminate|].
    destruct (IH n2 H1 H2 H) as [-> ->]. now split.
Qed.

End QualifiedNames.

(** C8 fails as stated: the backend [a] with its tool [b--c] and the backend
    [a--b] with its tool [c] are distinct pairs with the one qualified name
    [a--b--c]. *)
Lemma qualifiedName_collision :
  ("a", "b--c") <> ("a--b", "c")
  /\ qualifiedName "a" "b--c" = qualifiedName "a--b" "c"
  /\ ~ qualified_names_unique.
Proof.
  split; [discriminate|]. split; [reflexivity|].
  intros H. apply (H "a" "b--c" "a--b" "c"); [discriminate | reflexivity].
Qed.

(** C8, amended: for distinct backend names [n1], [n2] and any tool name
    [t], [n1--t] differs from [n2--t]; and two distinct pairs have distinct
    qualified names whenever they share the backend name, or share the tool
    name, or neither backend name contains a hyphen. *)
Theorem qualifiedName_unique (n1 t1 n2 t2 : string) :
  (n1 <> n2 -> qualifiedName n1 t1 <> qualifiedName n2 t1)
  /\ ((n1, t1) <> (n2, t2) ->
      n1 = n2 \/ t1 = t2 \/ (hyphen_free n1 = true /\ hyphen_free n2 = true) ->
      qualifiedName n1 t1 <> qualifiedName n2 t2).
Proof.
  split.
  - intros Hne H. apply Hne. eapply qualifiedName_inj_backend, H.
  - intros Hne [-> | [-> | [H1 H2]]] H; apply Hne.
    + f_equal. eapply qualifiedName_inj_tool, H.
    + f_equal. eapply qualifiedName_inj_backend, H.
    + destruct (qualifiedName_inj_hyphen_free _ _ _ _ H1 H2 H) as [-> ->]. reflexivity.
Qed.

Lemma qualifiedName_unique_witness :
  qualifiedName "srv" "ping" <> qualifiedName "db" "ping"
  /\ qualifiedName "srv" "ping" <> qualifiedName "db" "get-row".
Proof.
  destruct (qualifiedName_unique "srv" "ping" "db" "get-row") as [H1 H2].
  split.
  - apply H1. discriminate.
  - apply H2; [discriminate|]. right; right. split; reflexivity.
Defined.

(** ** The effect monad *)

Section EffFacts.
Context {E S : Type}.

Lemma bind_ext {A B} (m : Eff.M E S A) (f g : A -> Eff.M E S B) (s : S) :
  (forall a s', f a s' = g a s') -> Eff.bind m f s = Eff.bind m g s.
Proof.
  intros H. unfold Eff.bind. destruct (m s) as [[[e|a] s1] t1]; [reflexivity|].
  now rewrite H.
Qed.

Lemma ret_bind {A B} (a : A) (f : A -> Eff.M E S B) (s : S) :
  Eff.bind (Eff.ret a) f s = f a s.
Proof. unfold Eff.bind, Eff.ret. now destruct (f a s) as [[r s2] t2]. Qed.

Lemma bind_assoc {A B C} (m : Eff.M E S A) (f : A -> Eff.M E S B)
    (g : B -> Eff.M E S C) (s : S) :
  Eff.bind (Eff.bind m f) g s = Eff.bind m (fun a => Eff.bind (f a) g) s.
Proof.
  unfold Eff.bind. destruct (m s) as [[[e|a] s1] t1]; [reflexivity|].
  destruct (f a s1) as [[[e|b] s2] t2]; [reflexivity|].
  destruct (g b s2) as [[r s3] t3]. now rewrite app_assoc.
Qed.

Lemma for_of_app {A} (l1 l2 : list A) (f : A -> Eff.M E S unit) (s : S) :
  Eff.for_of (l1 ++ l2) f s
  = Eff.bind (Eff.for_of l1 f) (fun _ => Eff.for_of l2 f) s.
Proof.
  revert s. induction l1 as [|x l1 IH]; intros s; simpl.
  - now rewrite ret_bind.
  - rewrite bind_assoc. apply bind_ext. intros _ s'. apply IH.
Qed.

End EffFacts.

(** ** The client factory *)

Section ClientFactoryFacts.
Variable w : World.

(** [createClient] never throws and never suspends; it yields a client
    exactly for a constructible descriptor, and then logs nothing. *)
Lemma createClient_run (name : string) (cfg : TransportConfig) (count : nat) :
  exists o log,
    ClientFactory.createClient w name cfg count tt = (inr o, tt, log)
    /\ Forall (fun x => is_await x.1 = false /\ connect_name x.1 = None) log
    /\ (constructible w cfg = true ->
        log = [] /\ exists tr, o = Some (new_client w name count, tr))
    /\ (constructible w cfg = false -> o = None).
Proof.
  unfold ClientFactory.createClient, ClientFactory.buildTransport, constructible.
  destruct (tc_type cfg) as [url b a| cmd args env | url b a |];
    try destruct (url_parses w url);
    unfold Eff.bind, Eff.try_catch, Eff.ret, Eff.throw, Eff.emit; simpl;
    eexists _, _; (split; [reflexivity|]);
    (split; [repeat constructor|]); split; intros; try discriminate; eauto.
Qed.


(** One iteration of the retry loop, case by case. *)
Lemma connectLoop_unbuildable name cfg count :
  constructible w cfg = false ->
  exists log,
    Forall (fun x => is_await x.1 = false /\ connect_name x.1 = None) log
    /\ forall fuel clients,
        ClientFactory.connectLoop w (S fuel) name cfg count clients tt
        = (inr clients, tt, log).
Proof.
  intros Hc.
  destruct (createClient_run name cfg count) as (o & log & Hrun & Hlog & _ & Hnone).
  rewrite (Hnone Hc) in Hrun. exists log. split; [exact Hlog|].
  intros fuel clients. simpl.
  unfold Eff.bind. rewrite Hrun. unfold Eff.ret. now rewrite app_nil_r.
Qed.

Lemma connectLoop_connected fuel name cfg count clients :
  constructible w cfg = true -> connect w name count = None ->
  ClientFactory.connectLoop w (S fuel) name cfg count clients tt
  = (inr (clients ++ [mkConnectedClient (new_client w name count) name]), tt,
     [(EvConnect name count (new_client w name count), tt)]).
Proof.
  intros Hc Hok. simpl.
  destruct (createClient_run name cfg count) as (o & log & Hrun & _ & Hsome & _).
  destruct (Hsome Hc) as [-> [tr ->]].
  unfold Eff.bind at 1. rewrite Hrun.
  unfold Eff.try_catch, Eff.bind, Eff.await, Eff.ret. rewrite Hok. reflexivity.
Qed.

Lemma connectLoop_failed fuel name cfg count clients e :
  constructible w cfg = true -> connect w name count = Some e ->
  ClientFactory.connectLoop w (S fuel) name cfg count clients tt
  = if (S count <? ClientFactory.retries)%nat
    then
      match ClientFactory.connectLoop w fuel name cfg (S count) clients tt with
      | (r, _, t) =>
          (r, tt,
           [(EvConnect name count (new_client w name count), tt);
            (EvConsoleError ("Failed to connect to " +:+ name +:+ ":") (Some e), tt);
            (EvClientClose (new_client w name count), tt);
            (EvSleep ClientFactory.waitFor, tt)] ++ t)
      end
    else
      (inr clients, tt,
       [(EvConnect name count (new_client w name count), tt);
        (EvConsoleError ("Failed to connect to " +:+ name +:+ ":") (Some e), tt)]).
Proof.
  intros Hc Hko. simpl ClientFactory.connectLoop.
  destruct (createClient_run name cfg count) as (o & log & Hrun & _ & Hsome & _).
  destruct (Hsome Hc) as [-> [tr ->]].
  unfold Eff.bind at 1. rewrite Hrun.
  unfold Eff.try_catch at 1. unfold Eff.bind at 1. unfold Eff.await at 1.
  rewrite Hko. simpl settle. cbv iota beta.
  destruct (S count <? ClientFactory.retries)%nat.
  - unfold Eff.bind at 1. unfold Eff.emit at 1. cbv iota beta.
    unfold Eff.bind at 1. unfold Eff.try_catch, Eff.await, Eff.ret.
    destruct (client_close w (new_client w name count)); simpl settle; cbv iota beta;
      unfold Eff.bind; simpl;
      destruct (ClientFactory.connectLoop w fuel name cfg (S count) clients tt)
        as [[r []] t]; reflexivity.
  - unfold Eff.bind, Eff.emit, Eff.ret. reflexivity.
Qed.


(** The loop for one server never throws, leaves the clients it was given
    in place, and adds at most its own. *)
Lemma connectLoop_run fuel name cfg count :
  exists yield t,
    Forall (fun x => factory_event name x.1) t
    /\ Forall (fun c => cc_name c = name) yield
    /\ forall clients,
        ClientFactory.connectLoop w fuel name cfg count clients tt
        = (inr (clients ++ yield), tt, t).
Proof.
  revert count. induction fuel as [|fuel IH]; intros count.
  - exists [], []. split; [constructor|]. split; [constructor|].
    intros clients. simpl. unfold Eff.ret. now rewrite app_nil_r.
  - destruct (constructible w cfg) eqn:Hc.
    + destruct (connect w name count) as [e|] eqn:Hk.
      * destruct (IH (S count)) as (yield & t & Ht & Hy & Hrun).
        destruct (S count <? ClientFactory.retries)%nat eqn:Hretry.
        -- eexists yield, _. split; [|split; [exact Hy|intros clients;
             rewrite (connectLoop_failed _ _ _ _ _ e Hc Hk), Hretry, Hrun; reflexivity]].
           repeat (constructor; [repeat split; simpl; auto|]). exact Ht.
        -- eexists [], _. split; [|split; [constructor|intros clients;
             rewrite (connectLoop_failed _ _ _ _ _ e Hc Hk), Hretry, app_nil_r; reflexivity]].
           repeat (constructor; [repeat split; simpl; auto|]). constructor.
      * exists [mkConnectedClient (new_client w name count) name],
               [(EvConnect name count (new_client w name count), tt)].
        split; [|split; [repeat constructor|intros clients;
          rewrite (connectLoop_connected _ _ _ _ _ Hc Hk); reflexivity]].
        repeat (constructor; [repeat split; simpl; auto|]). constructor.
    + destruct (connectLoop_unbuildable name cfg count Hc) as (log & Hlog & Hrun).
      exists [], log. split; [|split; [constructor|]].
      * eapply Forall_impl; [exact Hlog|]. intros [e s] [Ha Hx].
        destruct e; simpl in *; try discriminate; repeat split; auto.
      * intros clients. now rewrite Hrun, app_nil_r.
Qed.

(** [retries] iterations are enough: more fuel changes nothing. *)
Lemma connectLoop_fuel_step name cfg fuel count clients :
  (1 <= fuel)%nat -> (ClientFactory.retries <= fuel + count)%nat ->
  ClientFactory.connectLoop w (S fuel) name cfg count clients tt
  = ClientFactory.connectLoop w fuel name cfg count clients tt.
Proof.
  revert count. induction fuel as [|fuel IH]; intros count H1 H2; [lia|].
  destruct (constructible w cfg) eqn:Hc.
  - destruct (connect w name count) as [e|] eqn:Hk.
    + rewrite !(connectLoop_failed _ _ _ _ _ e Hc Hk).
      destruct (S count <? ClientFactory.retries)%nat eqn:Hretry; [|reflexivity].
      apply Nat.ltb_lt in Hretry. rewrite IH; [reflexivity| |]; lia.
    + now rewrite !(connectLoop_connected _ _ _ _ _ Hc Hk).
  - destruct (connectLoop_unbuildable name cfg count Hc) as (log & _ & Hrun).
    now rewrite !Hrun.
Qed.

Lemma connectLoop_fuel name cfg fuel clients :
  (ClientFactory.retries <= fuel)%nat ->
  ClientFactory.connectLoop w fuel name cfg 0 clients tt
  = ClientFactory.connectLoop w ClientFactory.retries name cfg 0 clients tt.
Proof.
  induction 1 as [|fuel Hle IH]; [reflexivity|].
  rewrite connectLoop_fuel_step; [exact IH| |]; unfold ClientFactory.retries in *; lia.
Qed.

Lemma serverRun_spec (kv : string * TransportConfig) (clients : list ConnectedClient) :
  ClientFactory.connectLoop w ClientFactory.retries kv.1 kv.2 0 clients tt
  = (inr (clients ++ serverClients w kv), tt, Eff.trace (serverRun w kv)).
Proof.
  destruct (connectLoop_run ClientFactory.retries kv.1 kv.2 0) as (yield & t & _ & _ & Hrun).
  unfold serverClients, serverRun. rewrite (Hrun []), Hrun. reflexivity.
Qed.

Lemma serverRun_events (kv : string * TransportConfig) :
  Forall (factory_event kv.1) (serverEvents w kv).
Proof.
  destruct (connectLoop_run ClientFactory.retries kv.1 kv.2 0) as (yield & t & Ht & _ & Hrun).
  unfold serverEvents, serverRun, Eff.events. rewrite (Hrun []). simpl.
  now apply Forall_map.
Qed.

Lemma serverClients_names (kv : string * TransportConfig) :
  Forall (fun c => cc_name c = kv.1) (serverClients w kv).
Proof.
  destruct (connectLoop_run ClientFactory.retries kv.1 kv.2 0) as (yield & t & _ & Hy & Hrun).
  unfold serverClients, serverRun. rewrite (Hrun []). exact Hy.
Qed.

Lemma connectAll_run (l : list (string * TransportConfig)) (clients : list ConnectedClient) :
  ClientFactory.connectAll w l clients tt
  = (inr (clients ++ flat_map (serverClients w) l), tt,
     flat_map (fun kv => Eff.trace (serverRun w kv)) l).
Proof.
  revert clients. induction l as [|[name cfg] l IH]; intros clients.
  - simpl. unfold Eff.ret. now rewrite app_nil_r.
  - cbn -[ClientFactory.connectLoop serverClients serverRun].
    unfold Eff.bind. pose proof (serverRun_spec (name, cfg) clients) as H.
    cbn [fst snd] in H. rewrite H, IH. now rewrite <- app_assoc.
Qed.

(** [createMcpClients] never throws; it returns, in the order of the
    entries, the clients of the servers that connected, and its events are
    those of each server in turn. *)
Lemma createMcpClients_run (l : list (string * TransportConfig)) :
  ClientFactory.createMcpClients w l tt
  = (inr (flat_map (serverClients w) l), tt,
     flat_map (fun kv => Eff.trace (serverRun w kv)) l).
Proof. unfold ClientFactory.createMcpClients. now rewrite connectAll_run. Qed.


Lemma createMcpClients_events (l : list (string * TransportConfig)) :
  Eff.events (ClientFactory.createMcpClients w l tt) = flat_map (serverEvents w) l.
Proof.
  rewrite createMcpClients_run. unfold Eff.events. simpl.
  induction l as [|kv l IH]; [reflexivity|].
  simpl. rewrite map_app, IH. reflexivity.
Qed.

(** A server whose transport is built and whose handshake fails each time:
    three attempts, the client closed and 2.5 s slept after the first two,
    and no client yielded. *)
Lemma serverRun_always_failing (name : string) (cfg : TransportConfig) :
  constructible w cfg = true ->
  (forall count, connect w name count <> None) ->
  serverRun w (name, cfg)
  = (inr [], tt,
     map (fun e => (e, tt))
       [EvConnect name 0 (new_client w name 0);
        EvConsoleError ("Failed to connect to " +:+ name +:+ ":") (connect w name 0);
        EvClientClose (new_client w name 0);
        EvSleep 2500;
        EvConnect name 1 (new_client w name 1);
        EvConsoleError ("Failed to connect to " +:+ name +:+ ":") (connect w name 1);
        EvClientClose (new_client w name 1);
        EvSleep 2500;
        EvConnect name 2 (new_client w name 2);
        EvConsoleError ("Failed to connect to " +:+ name +:+ ":") (connect w name 2)]).
Proof.
  intros Hc Hfail. unfold serverRun. cbn [fst snd].
  destruct (connect w name 0) as [e0|] eqn:H0; [|now destruct (Hfail 0%nat)].
  destruct (connect w name 1) as [e1|] eqn:H1; [|now destruct (Hfail 1%nat)].
  destruct (connect w name 2) as [e2|] eqn:H2; [|now destruct (Hfail 2%nat)].
  unfold ClientFactory.retries.
  rewrite (connectLoop_failed _ _ _ _ _ e0 Hc H0).
  rewrite (connectLoop_failed _ _ _ _ _ e1 Hc H1).
  rewrite (connectLoop_failed _ _ _ _ _ e2 Hc H2).
  reflexivity.
Qed.

End ClientFactoryFacts.

(** C4.  A server whose transport is built and whose handshake fails at
    every attempt is tried exactly three times, its failed client closed and
    2.5 s waited after the first and after the second failure, and yields no
    connected client; the servers before and after it in the same pass are
    tried as if it were not there and their clients are the returned list. *)
Theorem retry_policy (w : World) (l1 l2 : list (string * TransportConfig))
    (name : string) (cfg : TransportConfig) :
  constructible w cfg = true ->
  (forall count, connect w name count <> None) ->
  let r := ClientFactory.createMcpClients w (l1 ++ (name, cfg) :: l2) tt in
  serverEvents w (name, cfg)
  = [EvConnect name 0 (new_client w name 0);
     EvConsoleError ("Failed to connect to " +:+ name +:+ ":") (connect w name 0);
     EvClientClose (new_client w name 0);
     EvSleep 2500;
     EvConnect name 1 (new_client w name 1);
     EvConsoleError ("Failed to connect to " +:+ name +:+ ":") (connect w name 1);
     EvClientClose (new_client w name 1);
     EvSleep 2500;
     EvConnect name 2 (new_client w name 2);
     EvConsoleError ("Failed to connect to " +:+ name +:+ ":") (connect w name 2)]
  /\ Eff.events r
     = Eff.events (ClientFactory.createMcpClients w l1 tt)
       ++ serverEvents w (name, cfg)
       ++ Eff.events (ClientFactory.createMcpClients w l2 tt)
  /\ Eff.outcome r = inr (flat_map (serverClients w) l1 ++ flat_map (serverClients w) l2)
  /\ Eff.outcome r = Eff.outcome (ClientFactory.createMcpClients w (l1 ++ l2) tt)
  /\ (name ∉ map fst (l1 ++ l2) ->
      forall c, Eff.outcome r = inr c -> name ∉ map cc_name c).
Proof.
  intros Hc Hfail r.
  pose proof (serverRun_always_failing w name cfg Hc Hfail) as Hrun.
  assert (Hcl : serverClients w (name, cfg) = []).
  { unfold serverClients. now rewrite Hrun. }
  assert (Hout : Eff.outcome r
                 = inr (flat_map (serverClients w) l1 ++ flat_map (serverClients w) l2)).
  { unfold r. rewrite createMcpClients_run. unfold Eff.outcome. simpl.
    rewrite flat_map_app. simpl. now rewrite Hcl. }
  split; [|split; [|split; [|split]]].
  - unfold serverEvents, Eff.events. rewrite Hrun. reflexivity.
  - unfold r. rewrite !createMcpClients_events, flat_map_app. reflexivity.
  - exact Hout.
  - rewrite Hout, createMcpClients_run. unfold Eff.outcome. simpl.
    now rewrite flat_map_app.
  - intros Hnot c Hc'. rewrite Hout in Hc'. injection Hc' as <-.
    rewrite <- flat_map_app. intros Hin. apply Hnot.
    apply list_elem_of_fmap in Hin as (c & -> & Hin).
    apply list_elem_of_In, in_flat_map in Hin as (kv & Hkv & Hin).
    pose proof (serverClients_names w kv) as Hn.
    rewrite Forall_forall in Hn. rewrite (Hn c); [|now apply list_elem_of_In].
    apply list_elem_of_fmap. exists kv. split; [reflexivity | now apply list_elem_of_In].
Qed.

(** ** Insertion-ordered maps *)

Section JsMapFacts.
Context {V : Type}.
Implicit Types (m : JsMap.t V) (k : string) (v : V).

Lemma get_set k k' v m :
  JsMap.get k (JsMap.set k' v m) = if decide (k' = k) then Some v else JsMap.get k m.
Proof.
  induction m as [|[k0 v0] m IH]; simpl.
  - reflexivity.
  - destruct (decide (k0 = k')) as [->|Hne]; simpl.
    + destruct (decide (k' = k)); reflexivity.
    + destruct (decide (k0 = k)) as [->|Hne'].
      * now rewrite decide_False by congruence.
      * exact IH.
Qed.

Lemma keys_set k v m :
  JsMap.keys (JsMap.set k v m)
  = if JsMap.has k m then JsMap.keys m else JsMap.keys m ++ [k].
Proof.
  unfold JsMap.has. induction m as [|[k0 v0] m IH]; simpl.
  - reflexivity.
  - destruct (decide (k0 = k)) as [->|Hne]; simpl; [reflexivity|].
    rewrite IH. now destruct (JsMap.get k m).
Qed.

Lemma get_None k m : JsMap.get k m = None <-> k ∉ JsMap.keys m.
Proof.
  induction m as [|[k0 v0] m IH]; simpl.
  - split; [intros _; apply not_elem_of_nil | reflexivity].
  - rewrite not_elem_of_cons. destruct (decide (k0 = k)) as [->|Hne].
    + split; [discriminate | intros [H _]; congruence].
    + rewrite IH. split; [intros H; split; congruence | intros [_ H]; exact H].
Qed.

Lemma get_Some_elem k v m : JsMap.get k m = Some v -> (k, v) ∈ m.
Proof.
  induction m as [|[k0 v0] m IH]; simpl; [discriminate|].
  destruct (decide (k0 = k)) as [->|Hne].
  - intros [= ->]. apply list_elem_of_here.
  - intros H. apply list_elem_of_further, IH, H.
Qed.

Lemma elem_keys_set k k' v m :
  k ∈ JsMap.keys (JsMap.set k' v m) <-> k = k' \/ k ∈ JsMap.keys m.
Proof.
  rewrite keys_set. unfold JsMap.has.
  destruct (JsMap.get k' m) eqn:Hg.
  - split; [auto|]. intros [->|H]; [|exact H].
    destruct (decide (k' ∈ JsMap.keys m)) as [H|H]; [exact H|].
    apply get_None in H. congruence.
  - rewrite elem_of_app, list_elem_of_singleton. tauto.
Qed.

Lemma set_all_app (l1 l2 : list (string * V)) m :
  set_all (l1 ++ l2) m = set_all l2 (set_all l1 m).
Proof. unfold set_all. apply fold_left_app. Qed.

Lemma elem_keys_set_all k (l : list (string * V)) m :
  k ∈ JsMap.keys (set_all l m) <-> k ∈ map fst l \/ k ∈ JsMap.keys m.
Proof.
  revert m. induction l as [|[k0 v0] l IH]; intros m; simpl.
  - split; [auto | intros [H|H]; [now apply elem_of_nil in H | exact H]].
  - rewrite IH, elem_keys_set, elem_of_cons. simpl. tauto.
Qed.

Lemma NoDup_keys_set k v m : NoDup (JsMap.keys m) -> NoDup (JsMap.keys (JsMap.set k v m)).
Proof.
  intros H. rewrite keys_set. unfold JsMap.has.
  destruct (JsMap.get k m) eqn:Hg; [exact H|].
  apply NoDup_app. split; [exact H|]. split; [|apply NoDup_singleton].
  intros x Hx Hx'. apply list_elem_of_singleton in Hx' as ->.
  apply get_None in Hg. contradiction.
Qed.

Lemma NoDup_keys_set_all (l : list (string * V)) m :
  NoDup (JsMap.keys m) -> NoDup (JsMap.keys (set_all l m)).
Proof.
  revert m. induction l as [|[k0 v0] l IH]; intros m H; simpl; [exact H|].
  apply IH, NoDup_keys_set, H.
Qed.

End JsMapFacts.

(** ** Loops whose body never throws *)

Section ForOf.
Context {E S A : Type}.
Variable f : A -> Eff.M E S unit.
Hypothesis f_total : forall x s, Eff.outcome (f x s) = inr tt.

Lemma for_of_outcome (l : list A) (s : S) :
  Eff.outcome (Eff.for_of l f s) = inr tt
  /\ Eff.final (Eff.for_of l f s) = fold_left (fun s x => Eff.final (f x s)) l s.
Proof.
  revert s. induction l as [|x l IH]; intros s; simpl; [split; reflexivity|].
  specialize (f_total x s). specialize (IH (Eff.final (f x s))).
  unfold Eff.bind, Eff.outcome, Eff.final in *.
  destruct (f x s) as [[[e|[]] s1] t1]; simpl in *; [discriminate|].
  destruct (Eff.for_of l f s1) as [[r s2] t2]. exact IH.
Qed.

(** Every event of the loop is an event of one iteration, run from the
    state the iterations before it left. *)
Lemma for_of_trace (l : list A) (s : S) (o : E * S) :
  o ∈ Eff.trace (Eff.for_of l f s)
  <-> exists done x rest,
        l = done ++ x :: rest
        /\ o ∈ Eff.trace (f x (fold_left (fun s x => Eff.final (f x s)) done s)).
Proof.
  revert s. induction l as [|x l IH]; intros s; simpl.
  - split; [intros H; now apply elem_of_nil in H|].
    intros (done & y & rest & H & _). now destruct done.
  - specialize (f_total x s). specialize (IH (Eff.final (f x s))).
    unfold Eff.bind, Eff.outcome, Eff.final, Eff.trace in *.
    destruct (f x s) as [[[e|[]] s1] t1] eqn:Hfx; simpl in *; [discriminate|].
    destruct (Eff.for_of l f s1) as [[r s2] t2]. simpl in *.
    rewrite elem_of_app, IH. split.
    + intros [H|(done & y & rest & -> & H)].
      * exists [], x, l. simpl. rewrite Hfx. auto.
      * exists (x :: done), y, rest. simpl. rewrite Hfx. auto.
    + intros (done & y & rest & Hl & H). destruct done as [|x' done]; simpl in *.
      * injection Hl as <- <-. rewrite Hfx in H. auto.
      * injection Hl as <- ->. rewrite Hfx in H. right. eauto.
Qed.

End ForOf.

(** ** Aggregation *)

Section AggregatorFacts.
Variable w : World.
Import ProxyService.

Lemma state_eta (st : State) :
  mkState (currentConnectedClients st) (toolToClientMap st) (resourceToClientMap st)
          (promptToClientMap st) (currentToolConfig st) = st.
Proof. now destruct st. Qed.

Lemma registerTool_run (c : ConnectedClient) (tool : Tool) (st : State) :
  registerTool c tool st
  = (inr tt,
     (if isEnabled (tools (currentToolConfig st)
                      !! qualifiedName (cc_name c) (tool_name tool))
      then set_toolToClientMap
             (JsMap.set (qualifiedName (cc_name c) (tool_name tool))
                        (mkToolEntry c tool) (toolToClientMap st)) st
      else st),
     []).
Proof.
  unfold registerTool, Eff.bind, Eff.get.
  destruct (isEnabled _); reflexivity.
Qed.

Lemma registerTools_run (c : ConnectedClient) (l : list Tool) (st : State) :
  Eff.for_of l (registerTool c) st
  = (inr tt,
     set_toolToClientMap
       (set_all (omap (fun tool =>
                   let q := qualifiedName (cc_name c) (tool_name tool) in
                   if isEnabled (tools (currentToolConfig st) !! q)
                   then Some (q, mkToolEntry c tool) else None) l)
                (toolToClientMap st)) st,
     []).
Proof.
  revert st. induction l as [|tool l IH]; intros st; simpl.
  - unfold Eff.ret, set_toolToClientMap. now rewrite state_eta.
  - unfold Eff.bind. rewrite registerTool_run, IH.
    destruct (isEnabled _) eqn:Hen; reflexivity.
Qed.

Lemma registerResources_run (c : ConnectedClient) (l : list Resource) (st : State) :
  Eff.for_of (E:=Event) l (fun resource =>
    Eff.modify (fun st =>
      set_resourceToClientMap
        (JsMap.set (res_uri resource) c (resourceToClientMap st)) st)) st
  = (inr tt,
     set_resourceToClientMap
       (set_all (map (fun r => (res_uri r, c)) l) (resourceToClientMap st)) st,
     []).
Proof.
  revert st. induction l as [|r l IH]; intros st; simpl.
  - unfold Eff.ret, set_resourceToClientMap. now rewrite state_eta.
  - unfold Eff.bind, Eff.modify at 1. rewrite IH. reflexivity.
Qed.

Lemma registerPrompts_run (c : ConnectedClient) (l : list Prompt) (st : State) :
  Eff.for_of (E:=Event) l (fun prompt =>
    Eff.modify (fun st =>
      set_promptToClientMap
        (JsMap.set (prompt_name prompt) c (promptToClientMap st)) st)) st
  = (inr tt,
     set_promptToClientMap
       (set_all (map (fun p => (prompt_name p, c)) l) (promptToClientMap st)) st,
     []).
Proof.
  revert st. induction l as [|p l IH]; intros st; simpl.
  - unfold Eff.ret, set_promptToClientMap. now rewrite state_eta.
  - unfold Eff.bind, Eff.modify at 1. rewrite IH. reflexivity.
Qed.

(** A discovery call never throws; it suspends once, on the request, in the
    state it was started in, and adds the entries of its client. *)
Lemma discoverTools_run (c : ConnectedClient) (st : State) :
  discoverTools w c st
  = (inr tt,
     set_toolToClientMap
       (set_all (toolEntries w (currentToolConfig st) c) (toolToClientMap st)) st,
     map (fun e => (e, st)) (EvRequest c tools_list_m :: failureLog w tools_list_m c)).
Proof.
  unfold discoverTools, toolEntries, reportedTools, failureLog, failure.
  unfold Eff.try_catch, Eff.bind at 1, Eff.await.
  destruct (tools_list w c) as [e|[[|tool rest]|]]; cbv beta iota.
  - unfold discoveryFailed. destruct (isMethodNotFound e); simpl;
      unfold Eff.emit, Eff.ret, set_toolToClientMap; now rewrite state_eta.
  - simpl. unfold Eff.ret, set_toolToClientMap. now rewrite state_eta.
  - rewrite (registerTools_run c (tool :: rest) st). reflexivity.
  - simpl. unfold Eff.ret, set_toolToClientMap. now rewrite state_eta.
Qed.

Lemma discoverResources_run (c : ConnectedClient) (st : State) :
  discoverResources w c st
  = (inr tt,
     set_resourceToClientMap
       (set_all (resourceEntries w c) (resourceToClientMap st)) st,
     map (fun e => (e, st)) (EvRequest c resources_list_m :: failureLog w resources_list_m c)).
Proof.
  unfold discoverResources, resourceEntries, reportedResources, failureLog, failure.
  unfold Eff.try_catch, Eff.bind at 1, Eff.await.
  destruct (resources_list w c) as [e|[l|]]; cbv beta iota.
  - unfold discoveryFailed. destruct (isMethodNotFound e); simpl;
      unfold Eff.emit, Eff.ret, set_resourceToClientMap; now rewrite state_eta.
  - rewrite registerResources_run. reflexivity.
  - simpl. unfold Eff.ret, set_resourceToClientMap. now rewrite state_eta.
Qed.

Lemma discoverPrompts_run (c : ConnectedClient) (st : State) :
  discoverPrompts w c st
  = (inr tt,
     set_promptToClientMap
       (set_all (promptEntries w c) (promptToClientMap st)) st,
     map (fun e => (e, st)) (EvRequest c prompts_list_m :: failureLog w prompts_list_m c)).
Proof.
  unfold discoverPrompts, promptEntries, reportedPrompts, failureLog, failure.
  unfold Eff.try_catch, Eff.bind at 1, Eff.await.
  destruct (prompts_list w c) as [e|[l|]]; cbv beta iota.
  - unfold discoveryFailed. destruct (isMethodNotFound e); simpl;
      unfold Eff.emit, Eff.ret, set_promptToClientMap; now rewrite state_eta.
  - rewrite registerPrompts_run. reflexivity.
  - simpl. unfold Eff.ret, set_promptToClientMap. now rewrite state_eta.
Qed.

(** The three in one statement. *)
Lemma discover_run (m : Method) (c : ConnectedClient) (st : State) :
  discover w m c st
  = (inr tt, applyStep w st (m, c),
     map (fun e => (e, st)) (EvRequest c m :: failureLog w m c)).
Proof.
  unfold applyStep. destruct m; simpl.
  - now rewrite discoverTools_run.
  - now rewrite discoverResources_run.
  - now rewrite discoverPrompts_run.
Qed.

Lemma applyStep_tools (c : ConnectedClient) (st : State) :
  applyStep w st (tools_list_m, c)
  = set_toolToClientMap
      (set_all (toolEntries w (currentToolConfig st) c) (toolToClientMap st)) st.
Proof. unfold applyStep. simpl. now rewrite discoverTools_run. Qed.

Lemma applyStep_resources (c : ConnectedClient) (st : State) :
  applyStep w st (resources_list_m, c)
  = set_resourceToClientMap
      (set_all (resourceEntries w c) (resourceToClientMap st)) st.
Proof. unfold applyStep. simpl. now rewrite discoverResources_run. Qed.

Lemma applyStep_prompts (c : ConnectedClient) (st : State) :
  applyStep w st (prompts_list_m, c)
  = set_promptToClientMap
      (set_all (promptEntries w c) (promptToClientMap st)) st.
Proof. unfold applyStep. simpl. now rewrite discoverPrompts_run. Qed.

(** The loop over the clients is the loop over the discovery calls. *)
Lemma clients_loop_steps (clients : list ConnectedClient) (st : State) :
  Eff.for_of clients (fun connectedClient =>
    Eff.bind (discoverTools w connectedClient) (fun _ =>
    Eff.bind (discoverResources w connectedClient) (fun _ =>
    discoverPrompts w connectedClient))) st
  = Eff.for_of (discoverySteps clients) (fun step => discover w step.1 step.2) st.
Proof.
  revert st. induction clients as [|c clients IH]; intros st; [reflexivity|].
  cbn [Eff.for_of discoverySteps flat_map app fst snd discover].
  rewrite bind_assoc. apply bind_ext. intros _ s1.
  rewrite bind_assoc. apply bind_ext. intros _ s2.
  apply bind_ext. intros _ s3. apply IH.
Qed.

Lemma aggregate_steps (st : State) :
  aggregate w st
  = Eff.for_of (discoverySteps (currentConnectedClients st))
               (fun step => discover w step.1 step.2) (cleared st).
Proof.
  unfold aggregate.
  unfold Eff.bind at 1, Eff.modify at 1. unfold Eff.bind at 1, Eff.modify at 1.
  unfold Eff.bind at 1, Eff.modify at 1. unfold Eff.bind at 1, Eff.get at 1.
  fold (cleared st).
  rewrite clients_loop_steps.
  destruct (Eff.for_of _ _ (cleared st)) as [[r s] t]. reflexivity.
Qed.

Lemma discover_outcome (step : Method * ConnectedClient) (st : State) :
  Eff.outcome (discover w step.1 step.2 st) = inr tt.
Proof. now rewrite discover_run. Qed.

(** The pass never throws and leaves the maps refilled by all its calls. *)
Lemma aggregate_outcome (st : State) :
  Eff.outcome (aggregate w st) = inr tt
  /\ Eff.final (aggregate w st) = refilled w st (discoverySteps (currentConnectedClients st)).
Proof.
  rewrite aggregate_steps.
  apply (for_of_outcome (fun step => discover w step.1 step.2) discover_outcome).
Qed.

(** What is visible while the pass is suspended: the maps as refilled by
    the calls answered so far. *)
Lemma aggregate_trace (st : State) (o : Event * State) :
  o ∈ Eff.trace (aggregate w st)
  <-> exists done step rest,
        discoverySteps (currentConnectedClients st) = done ++ step :: rest
        /\ o.2 = refilled w st done
        /\ o.1 ∈ EvRequest step.2 step.1 :: failureLog w step.1 step.2.
Proof.
  rewrite aggregate_steps.
  rewrite (for_of_trace (fun step => discover w step.1 step.2) discover_outcome).
  split; intros (done & step & rest & Hl & Ho); exists done, step, rest;
    (split; [exact Hl|]); fold (applyStep w) in *; fold (refilled w st done) in *.
  - rewrite discover_run in Ho. unfold Eff.trace in Ho. cbn [snd] in Ho.
    apply list_elem_of_In, in_map_iff in Ho as (e & <- & He).
    split; [reflexivity | now apply list_elem_of_In].
  - destruct Ho as [Hs He]. rewrite discover_run. unfold Eff.trace. cbn [snd].
    apply list_elem_of_In, in_map_iff. exists o.1. split; [|now apply list_elem_of_In].
    destruct o; simpl in *; now subst.
Qed.


Lemma fold_steps (clients : list ConnectedClient) (s : State) :
  fold_left (applyStep w) (discoverySteps clients) s
  = mkState (currentConnectedClients s)
      (set_all (flat_map (toolEntries w (currentToolConfig s)) clients) (toolToClientMap s))
      (set_all (flat_map (resourceEntries w) clients) (resourceToClientMap s))
      (set_all (flat_map (promptEntries w) clients) (promptToClientMap s))
      (currentToolConfig s).
Proof.
  revert s. induction clients as [|c clients IH]; intros s.
  - simpl. now rewrite state_eta.
  - cbn [discoverySteps flat_map app fold_left].
    rewrite applyStep_tools, applyStep_resources, applyStep_prompts.
    fold (discoverySteps clients). rewrite IH. simpl.
    now rewrite !set_all_app.
Qed.

(** The pass leaves the maps a function of the connected clients, the tool
    configuration and the answers of the backends. *)
Lemma aggregate_final (st : State) :
  Eff.final (aggregate w st) = aggregated w st.
Proof.
  destruct (aggregate_outcome st) as [_ ->]. unfold refilled.
  rewrite fold_steps. reflexivity.
Qed.

Lemma aggregate_run (st : State) :
  aggregate w st = (inr tt, aggregated w st, Eff.trace (aggregate w st)).
Proof.
  destruct (aggregate_outcome st) as [Ho _]. pose proof (aggregate_final st) as Hf.
  unfold Eff.outcome, Eff.final, Eff.trace in *.
  destruct (aggregate w st) as [[r s] t]. simpl in *. now subst.
Qed.

End AggregatorFacts.

(** ** Reconciliation *)

Section ReconcileFacts.
Variable w : World.
Import ProxyService.

Lemma cleanup_run (c : ConnectedClient) (s : State) :
  Eff.try_catch
    (Eff.await (EvCleanup c) (settle (transport_close w c)))
    (fun error =>
       Eff.emit (EvConsoleError ("  Error cleaning up client " +:+ cc_name c +:+ ":")
                   (Some error))) s
  = (inr tt, s, map (fun e => (e, s)) (cleanupEvents w c)).
Proof.
  unfold Eff.try_catch, Eff.await, Eff.emit, cleanupEvents.
  destruct (transport_close w c); reflexivity.
Qed.

Lemma cleanupAll_run (l : list ConnectedClient) (s : State) :
  cleanupAll w l s = (inr tt, s, map (fun e => (e, s)) (flat_map (cleanupEvents w) l)).
Proof.
  unfold cleanupAll. induction l as [|c l IH]; [reflexivity|].
  cbn [Eff.for_of flat_map]. unfold Eff.bind at 1.
  rewrite cleanup_run, IH, map_app. reflexivity.
Qed.

Lemma lift_createMcpClients (l : list (string * TransportConfig)) (s : State) :
  Eff.lift (ClientFactory.createMcpClients w l) tt s
  = (inr (flat_map (serverClients w) l), s,
     map (fun e => (e, s)) (flat_map (serverEvents w) l)).
Proof.
  unfold Eff.lift. rewrite createMcpClients_run. f_equal.
  induction l as [|kv l IH]; [reflexivity|].
  simpl. rewrite !map_app, IH. f_equal.
  unfold serverEvents, Eff.events. now rewrite map_map.
Qed.

(** A reconciliation never throws.  It sets the tool configuration, tears
    down and connects with the maps of the generation before still in
    place, then runs the aggregation pass. *)
Lemma update_run (newServerConfig : option Config) (newToolConfig : option ToolConfig)
    (st : State) :
  let cfg := configInUse w newServerConfig in
  let tc := toolConfigInUse w newToolConfig in
  updateBackendConnections w newServerConfig newToolConfig st
  = (inr tt, aggregated w (reconnected w cfg tc st),
     map (fun e => (e, st)) (loadEvents newServerConfig newToolConfig)
     ++ map (fun e => (e, set_currentToolConfig tc st)) (connectionEvents w cfg st)
     ++ Eff.trace (aggregate w (reconnected w cfg tc st))).
Proof.
  intros cfg tc. unfold updateBackendConnections.
  assert (Hload :
    forall (k : Config -> Eff.M Event State unit),
      Eff.bind (match newServerConfig with
                | Some c => Eff.ret c
                | None => Eff.await EvLoadConfig (inr (loadConfig w))
                end) k st
      = match k cfg st with
        | (r, s, t) =>
            (r, s, map (fun e => (e, st))
                     (match newServerConfig with None => [EvLoadConfig] | Some _ => [] end)
                   ++ t)
        end).
  { intros k. unfold cfg, configInUse, Eff.bind, Eff.ret, Eff.await.
    destruct newServerConfig; simpl; now destruct (k _ st) as [[r s] t]. }
  rewrite Hload. clear Hload.
  assert (Hload :
    forall (k : ToolConfig -> Eff.M Event State unit),
      Eff.bind (match newToolConfig with
                | Some c => Eff.ret c
                | None => Eff.await EvLoadToolConfig (inr (loadToolConfig w))
                end) k st
      = match k tc st with
        | (r, s, t) =>
            (r, s, map (fun e => (e, st))
                     (match newToolConfig with None => [EvLoadToolConfig] | Some _ => [] end)
                   ++ t)
        end).
  { intros k. unfold tc, toolConfigInUse, Eff.bind, Eff.ret, Eff.await.
    destruct newToolConfig; simpl; now destruct (k _ st) as [[r s] t0]. }
  rewrite Hload. clear Hload.
  unfold Eff.bind at 1, Eff.modify at 1. unfold Eff.bind at 1, Eff.get at 1.
  cbv zeta.
  fold (activeServers cfg).
  change (currentConnectedClients (set_currentToolConfig tc st))
    with (currentConnectedClients st).
  fold (clientsToRemove cfg st). fold (clientsToKeep cfg st). fold (keysToAdd cfg st).
  fold (configToAdd cfg st).
  set (st1 := set_currentToolConfig tc st).
  assert (Hteardown :
    (if (0 <? length (clientsToRemove cfg st))%nat
     then cleanupAll w (clientsToRemove cfg st) else Eff.ret tt) st1
    = (inr tt, st1,
       map (fun e => (e, st1)) (flat_map (cleanupEvents w) (clientsToRemove cfg st)))).
  { destruct (clientsToRemove cfg st) as [|c l]; [reflexivity|].
    cbn [length Nat.ltb Nat.leb]. apply cleanupAll_run. }
  assert (Hconnect :
    (if (0 <? length (keysToAdd cfg st))%nat
     then Eff.lift (ClientFactory.createMcpClients w (configToAdd cfg st)) tt
     else Eff.ret []) st1
    = (inr (flat_map (serverClients w) (configToAdd cfg st)), st1,
       map (fun e => (e, st1)) (flat_map (serverEvents w) (configToAdd cfg st)))).
  { unfold configToAdd. destruct (keysToAdd cfg st) as [|k l]; [reflexivity|].
    cbn [length Nat.ltb Nat.leb]. apply lift_createMcpClients. }
  unfold Eff.bind at 1. rewrite Hteardown.
  unfold Eff.bind at 1. rewrite Hconnect.
  unfold Eff.bind at 1, Eff.modify at 1.
  change (set_currentConnectedClients _ st1) with (reconnected w cfg tc st).
  rewrite (aggregate_run w (reconnected w cfg tc st)) at 1.
  unfold loadEvents, connectionEvents.
  rewrite !map_app, <- !app_assoc. reflexivity.
Qed.

End ReconcileFacts.

Section ReconcileSets.
Variable w : World.
Import ProxyService.

Lemma has_key_true (l : list string) (k : string) : has_key l k = true <-> k ∈ l.
Proof. unfold has_key. apply bool_decide_eq_true. Qed.

Lemma has_key_false (l : list string) (k : string) : has_key l k = false <-> k ∉ l.
Proof. unfold has_key. apply bool_decide_eq_false. Qed.

Lemma elem_of_keysToAdd cfg st k :
  k ∈ keysToAdd cfg st
  <-> k ∈ map fst (activeServers cfg) /\ k ∉ map cc_name (currentConnectedClients st).
Proof.
  unfold keysToAdd. rewrite list_elem_of_filter, has_key_false. tauto.
Qed.

Lemma elem_of_configToAdd cfg st k c :
  (k, c) ∈ configToAdd cfg st
  <-> k ∈ keysToAdd cfg st /\ prop_get k (activeServers cfg) = Some c.
Proof.
  unfold configToAdd. rewrite list_elem_of_omap. split.
  - intros (k' & Hk & Heq).
    destruct (prop_get k' (activeServers cfg)) as [c'|] eqn:Hg; simpl in Heq;
      [|discriminate]. injection Heq as <- <-. auto.
  - intros [Hk Hg]. exists k. split; [exact Hk|]. now rewrite Hg.
Qed.

Lemma elem_of_clientsToKeep cfg st c :
  c ∈ clientsToKeep cfg st
  <-> c ∈ currentConnectedClients st /\ cc_name c ∈ map fst (activeServers cfg).
Proof.
  unfold clientsToKeep. rewrite list_elem_of_filter, has_key_true. tauto.
Qed.

Lemma elem_of_clientsToRemove cfg st c :
  c ∈ clientsToRemove cfg st
  <-> c ∈ currentConnectedClients st /\ cc_name c ∉ map fst (activeServers cfg).
Proof.
  unfold clientsToRemove. rewrite list_elem_of_filter, has_key_false. tauto.
Qed.

(** A newly connected client bears the key of an entry that was to be
    added. *)
Lemma newly_connected_name cfg st c :
  c ∈ flat_map (serverClients w) (configToAdd cfg st) ->
  cc_name c ∈ keysToAdd cfg st
  /\ exists conf, (cc_name c, conf) ∈ configToAdd cfg st
                  /\ c ∈ serverClients w (cc_name c, conf).
Proof.
  intros Hin. apply list_elem_of_In, in_flat_map in Hin as ([k conf] & Hkv & Hin).
  apply list_elem_of_In in Hkv, Hin.
  pose proof (serverClients_names w (k, conf)) as Hn. rewrite Forall_forall in Hn.
  specialize (Hn c Hin). simpl in Hn. subst k.
  split; [|eauto]. now apply elem_of_configToAdd in Hkv as [Hk _].
Qed.

(** After a pass every connected client bears an active key. *)
Lemma reconnected_names cfg tc st c :
  c ∈ currentConnectedClients (reconnected w cfg tc st) ->
  cc_name c ∈ map fst (activeServers cfg).
Proof.
  simpl. rewrite elem_of_app. intros [H|H].
  - now apply elem_of_clientsToKeep in H.
  - apply newly_connected_name in H as [H _]. now apply elem_of_keysToAdd in H.
Qed.

Lemma filter_all {A} (P : A -> Prop) `{forall x, Decision (P x)} (l : list A) :
  Forall P l -> filter P l = l.
Proof.
  induction 1 as [|x l Hx Hl IH]; [reflexivity|].
  rewrite filter_cons, decide_True by exact Hx. now rewrite IH.
Qed.

Lemma flat_map_nil {A B} (f : A -> list B) (l : list A) :
  Forall (fun x => f x = []) l -> flat_map f l = [].
Proof. induction 1 as [|x l Hx Hl IH]; simpl; [reflexivity | now rewrite Hx, IH]. Qed.

(** The second of two passes with one configuration and one environment
    keeps every client and connects none. *)
Lemma reconnected_twice cfg tc tc' st :
  currentConnectedClients (reconnected w cfg tc' (aggregated w (reconnected w cfg tc st)))
  = currentConnectedClients (reconnected w cfg tc st).
Proof.
  set (s1 := aggregated w (reconnected w cfg tc st)).
  assert (Hcl : currentConnectedClients s1 = currentConnectedClients (reconnected w cfg tc st))
    by reflexivity.
  change (clientsToKeep cfg s1 ++ flat_map (serverClients w) (configToAdd cfg s1)
          = currentConnectedClients (reconnected w cfg tc st)).
  assert (Hkeep : clientsToKeep cfg s1 = currentConnectedClients s1).
  { unfold clientsToKeep. apply filter_all, Forall_forall. intros c Hc.
    apply has_key_true. rewrite Hcl in Hc. eapply reconnected_names, Hc. }
  assert (Hnew : flat_map (serverClients w) (configToAdd cfg s1) = []).
  { apply flat_map_nil, Forall_forall. intros [k conf] Hkv.
    destruct (serverClients w (k, conf)) as [|x l] eqn:Hx; [reflexivity|exfalso].
    apply elem_of_configToAdd in Hkv as [Hk Hg].
    apply elem_of_keysToAdd in Hk as [Hact Hnot].
    assert (Hxn : cc_name x = k).
    { pose proof (serverClients_names w (k, conf)) as Hn. rewrite Hx in Hn.
      now inversion Hn. }
    apply Hnot. rewrite Hcl. simpl. rewrite map_app, elem_of_app. right.
    apply list_elem_of_fmap. exists x. split; [now rewrite Hxn|].
    apply list_elem_of_In, in_flat_map. exists (k, conf). split.
    - apply list_elem_of_In, elem_of_configToAdd. split; [|exact Hg].
      apply elem_of_keysToAdd. split; [exact Hact|].
      intros Hin. apply Hnot. rewrite Hcl. simpl. rewrite map_app, elem_of_app. left.
      apply list_elem_of_fmap in Hin as (c0 & -> & Hc0).
      apply list_elem_of_fmap. exists c0. split; [reflexivity|].
      apply elem_of_clientsToKeep. auto.
    - rewrite Hx. apply in_eq. }
  now rewrite Hkeep, Hnew, app_nil_r.
Qed.

End ReconcileSets.

Section ReconcileEvents.
Variable w : World.
Import ProxyService.

Lemma update_events (newServerConfig : option Config) (newToolConfig : option ToolConfig)
    (st : State) :
  Eff.events (updateBackendConnections w newServerConfig newToolConfig st)
  = loadEvents newServerConfig newToolConfig
    ++ connectionEvents w (configInUse w newServerConfig) st
    ++ Eff.events (aggregate w (reconnected w (configInUse w newServerConfig)
                                  (toolConfigInUse w newToolConfig) st)).
Proof.
  rewrite update_run. unfold Eff.events. cbn [snd].
  rewrite !map_app, !map_map. cbn [fst]. now rewrite !map_id.
Qed.

(** The aggregation pass only sends discovery requests and logs. *)
Lemma aggregate_events_kinds (s : State) (e : Event) :
  e ∈ Eff.events (aggregate w s) -> teardown_of e = None /\ connect_name e = None.
Proof.
  intros He. apply list_elem_of_fmap in He as (o & -> & Ho).
  apply aggregate_trace in Ho as (done & step & rest & _ & _ & Ho).
  apply elem_of_cons in Ho as [-> | Ho]; [split; reflexivity|].
  unfold failureLog in Ho. destruct (failure w step.1 step.2) as [e|].
  - destruct (isMethodNotFound e).
    + now apply elem_of_nil in Ho.
    + apply list_elem_of_singleton in Ho as ->. split; reflexivity.
  - now apply elem_of_nil in Ho.
Qed.

(** Before the aggregation, a cleanup is that of a client to remove and a
    connection attempt that of a key to add. *)
Lemma connectionEvents_kinds cfg st (e : Event) :
  e ∈ connectionEvents w cfg st ->
  (forall c, teardown_of e = Some c -> c ∈ clientsToRemove cfg st)
  /\ (forall n, connect_name e = Some n -> n ∈ keysToAdd cfg st).
Proof.
  unfold connectionEvents. rewrite elem_of_app. intros [He|He].
  - apply list_elem_of_In, in_flat_map in He as (c & Hc & He).
    apply list_elem_of_In in Hc. unfold cleanupEvents in He.
    destruct He as [<-|He].
    + split; [intros c' [= <-]; exact Hc | discriminate].
    + destruct (transport_close w c); [|contradiction].
      destruct He as [<-|[]]. split; discriminate.
  - apply list_elem_of_In, in_flat_map in He as ([k conf] & Hkv & He).
    apply list_elem_of_In in Hkv.
    pose proof (serverRun_events w (k, conf)) as Hev. rewrite Forall_forall in Hev.
    apply list_elem_of_In in He.
    destruct (Hev e He) as (Ht & _ & Hn). split.
    + intros c Hc. congruence.
    + intros n Hc. destruct Hn as [Hn|Hn]; [congruence|].
      rewrite Hc in Hn. injection Hn as ->.
      now apply elem_of_configToAdd in Hkv as [Hk _].
Qed.

Lemma loadEvents_kinds nsc ntc (e : Event) :
  e ∈ loadEvents nsc ntc -> teardown_of e = None /\ connect_name e = None.
Proof.
  unfold loadEvents. destruct nsc, ntc; simpl; intros He;
    repeat (apply elem_of_cons in He as [->|He]; [split; reflexivity|]);
    now apply elem_of_nil in He.
Qed.

(** A client that is connected and whose key is active is neither cleaned
    up nor connected again by a pass. *)
Lemma kept_untouched nsc ntc st c :
  c ∈ currentConnectedClients st ->
  cc_name c ∈ map fst (activeServers (configInUse w nsc)) ->
  let r := updateBackendConnections w nsc ntc st in
  c ∈ currentConnectedClients (Eff.final r)
  /\ (EvCleanup c ∉ Eff.events r)
  /\ (forall count h, EvConnect (cc_name c) count h ∉ Eff.events r).
Proof.
  intros Hc Hact r. unfold r. split; [|split].
  - rewrite update_run. unfold Eff.final. simpl. apply elem_of_app. left.
    apply elem_of_clientsToKeep. auto.
  - rewrite update_events, !elem_of_app. intros [H|[H|H]].
    + now apply loadEvents_kinds in H as [H _].
    + apply connectionEvents_kinds in H as [H _].
      specialize (H c eq_refl). apply elem_of_clientsToRemove in H as [_ H]. auto.
    + now apply aggregate_events_kinds in H as [H _].
  - intros count h. rewrite update_events, !elem_of_app. intros [H|[H|H]].
    + now apply loadEvents_kinds in H as [_ H].
    + apply connectionEvents_kinds in H as [_ H].
      specialize (H (cc_name c) eq_refl). apply elem_of_keysToAdd in H as [_ H].
      apply H, list_elem_of_fmap. eauto.
    + now apply aggregate_events_kinds in H as [_ H].
Qed.

End ReconcileEvents.

(** C3.  A second reconciliation with the configuration of the first, the
    backends answering as they did, never throws and leaves the connected
    clients, the three routing maps and the tool configuration as the first
    left them; and in any reconciliation a connected client whose key is
    active in the new configuration stays in the connected set as the very
    same connection, with no cleanup of it and no connection attempt for its
    name. *)
Theorem reconcile_idempotent (w : World) (newServerConfig : option Config)
    (newToolConfig : option ToolConfig) (st : ProxyService.State) :
  let cfg := configInUse w newServerConfig in
  let r1 := ProxyService.updateBackendConnections w newServerConfig newToolConfig st in
  let r2 := ProxyService.updateBackendConnections w newServerConfig newToolConfig
              (Eff.final r1) in
  Eff.outcome r2 = inr tt
  /\ Eff.final r2 = Eff.final r1
  /\ (forall c,
        c ∈ ProxyService.currentConnectedClients st ->
        cc_name c ∈ map fst (activeServers cfg) ->
        c ∈ ProxyService.currentConnectedClients (Eff.final r1)
        /\ (EvCleanup c ∉ Eff.events r1)
        /\ (forall count h, EvConnect (cc_name c) count h ∉ Eff.events r1))
  /\ (forall c,
        c ∈ ProxyService.currentConnectedClients (Eff.final r1) ->
        c ∈ ProxyService.currentConnectedClients (Eff.final r2)
        /\ (EvCleanup c ∉ Eff.events r2)
        /\ (forall count h, EvConnect (cc_name c) count h ∉ Eff.events r2)).
Proof.
  intros cfg r1 r2.
  assert (H1 : Eff.final r1
               = aggregated w (reconnected w cfg (toolConfigInUse w newToolConfig) st)).
  { unfold r1. now rewrite update_run. }
  split; [|split; [|split]].
  - unfold r2. now rewrite update_run.
  - unfold r2. rewrite update_run. unfold Eff.final at 1. cbn [fst snd].
    rewrite H1. unfold aggregated at 1.
    rewrite (reconnected_twice w cfg). reflexivity.
  - intros c Hc Hact.
    exact (kept_untouched w newServerConfig newToolConfig st c Hc Hact).
  - intros c Hc.
    apply (kept_untouched w newServerConfig newToolConfig (Eff.final r1) c Hc).
    rewrite H1 in Hc.
    exact (reconnected_names w cfg (toolConfigInUse w newToolConfig) st c Hc).
Qed.

(** ** Discovery failures *)

Section DiscoveryFacts.
Variable w : World.
Import ProxyService.

Lemma isMethodNotFound_spec (e : Js.Exn) :
  isMethodNotFound e = true
  <-> Js.ex_name e = "McpError" /\ Js.ex_code e = Some (-32601)%Z.
Proof.
  unfold isMethodNotFound. rewrite andb_true_iff, !bool_decide_eq_true. tauto.
Qed.

(** A failed call contributes no entry of its kind. *)
Lemma failed_entries (m : Method) (b : ConnectedClient) (e : Js.Exn) (tc : ToolConfig) :
  failure w m b = Some e ->
  match m with
  | tools_list_m => toolEntries w tc b = []
  | resources_list_m => resourceEntries w b = []
  | prompts_list_m => promptEntries w b = []
  end.
Proof.
  unfold failure, toolEntries, reportedTools, resourceEntries, reportedResources,
    promptEntries, reportedPrompts.
  destruct m.
  - destruct (tools_list w b); [reflexivity | discriminate].
  - destruct (resources_list w b); [reflexivity | discriminate].
  - destruct (prompts_list w b); [reflexivity | discriminate].
Qed.

(** The console never shows a "method not found" discovery error. *)
Lemma aggregate_logged (s : State) (msg : string) (e : Js.Exn) :
  EvConsoleError msg (Some e) ∈ Eff.events (aggregate w s) ->
  isMethodNotFound e = false.
Proof.
  intros He. apply list_elem_of_fmap in He as (o & Heq & Ho).
  apply aggregate_trace in Ho as (done & step & rest & _ & _ & Ho).
  rewrite <- Heq in Ho. apply elem_of_cons in Ho as [Ho | Ho]; [discriminate|].
  unfold failureLog in Ho. destruct (failure w step.1 step.2) as [e'|].
  - destruct (isMethodNotFound e') eqn:Hm.
    + now apply elem_of_nil in Ho.
    + apply list_elem_of_singleton in Ho. injection Ho as _ ->. exact Hm.
  - now apply elem_of_nil in Ho.
Qed.

(** Each discovery call of a connected client is a step of the pass. *)
Lemma step_of_client (l1 l2 : list ConnectedClient) (b : ConnectedClient) (m : Method) :
  exists done rest,
    discoverySteps (l1 ++ b :: l2) = done ++ (m, b) :: rest.
Proof.
  unfold discoverySteps. rewrite flat_map_app. cbn [flat_map].
  set (s1 := flat_map _ l1). set (s2 := flat_map _ l2).
  destruct m.
  - exists s1, ((resources_list_m, b) :: (prompts_list_m, b) :: s2). reflexivity.
  - exists (s1 ++ [(tools_list_m, b)]), ((prompts_list_m, b) :: s2).
    now rewrite <- app_assoc.
  - exists (s1 ++ [(tools_list_m, b); (resources_list_m, b)]), s2.
    now rewrite <- app_assoc.
Qed.

Lemma failure_logged (s : State) (l1 l2 : list ConnectedClient) (b : ConnectedClient)
    (m : Method) (e : Js.Exn) :
  currentConnectedClients s = l1 ++ b :: l2 ->
  failure w m b = Some e ->
  isMethodNotFound e = false ->
  EvConsoleError ("Error fetching " +:+ kind_name m +:+ " from " +:+ cc_name b +:+ ":")
                 (Some e)
  ∈ Eff.events (aggregate w s).
Proof.
  intros Hcl Hf Hm.
  destruct (step_of_client l1 l2 b m) as (done & rest & Hsteps).
  apply list_elem_of_fmap.
  eexists (_, refilled w s done). split; [reflexivity|].
  apply aggregate_trace. exists done, (m, b), rest. rewrite Hcl.
  split; [exact Hsteps|]. split; [reflexivity|].
  cbn [fst snd]. apply list_elem_of_further.
  unfold failureLog. rewrite Hf, Hm. apply list_elem_of_here.
Qed.

End DiscoveryFacts.

(** C6.  When a discovery call to a connected backend fails, the aggregation
    pass still completes without throwing and the map of that kind is what
    it would be with that backend absent; a failure whose name is
    [McpError] and whose code is -32601 is not written to the console, any
    other is. *)
Theorem discovery_isolation (w : World) (st : ProxyService.State)
    (l1 l2 : list ConnectedClient) (b : ConnectedClient) (m : Method) (e : Js.Exn) :
  ProxyService.currentConnectedClients st = l1 ++ b :: l2 ->
  failure w m b = Some e ->
  let r := ProxyService.aggregate w st in
  let r' := ProxyService.aggregate w
              (ProxyService.set_currentConnectedClients (l1 ++ l2) st) in
  Eff.outcome r = inr tt
  /\ match m with
     | tools_list_m =>
         ProxyService.toolToClientMap (Eff.final r)
         = ProxyService.toolToClientMap (Eff.final r')
     | resources_list_m =>
         ProxyService.resourceToClientMap (Eff.final r)
         = ProxyService.resourceToClientMap (Eff.final r')
     | prompts_list_m =>
         ProxyService.promptToClientMap (Eff.final r)
         = ProxyService.promptToClientMap (Eff.final r')
     end
  /\ (Js.ex_name e = "McpError" /\ Js.ex_code e = Some (-32601)%Z ->
      forall msg, EvConsoleError msg (Some e) ∉ Eff.events r)
  /\ (~ (Js.ex_name e = "McpError" /\ Js.ex_code e = Some (-32601)%Z) ->
      EvConsoleError
        ("Error fetching " +:+ kind_name m +:+ " from " +:+ cc_name b +:+ ":") (Some e)
      ∈ Eff.events r).
Proof.
  intros Hcl Hf r r'. split; [|split; [|split]].
  - apply aggregate_outcome.
  - unfold r, r'. rewrite !aggregate_final. unfold aggregated. cbn.
    rewrite Hcl, !flat_map_app. cbn [flat_map].
    pose proof (failed_entries w m b e (ProxyService.currentToolConfig st) Hf) as H0.
    destruct m; now rewrite H0.
  - intros Hmnf msg Hin. apply aggregate_logged in Hin.
    apply isMethodNotFound_spec in Hmnf. congruence.
  - intros Hmnf. apply (failure_logged w st l1 l2 b m e Hcl Hf).
    destruct (ProxyService.isMethodNotFound e) eqn:Hm; [|reflexivity].
    now apply isMethodNotFound_spec in Hm.
Qed.

(** ** Routing *)

Section RoutingFacts.
Import ProxyService.

Lemma scanEntries_first (ov : gmap string ToolSettings) (X : string)
    (l1 l2 : list (string * ToolEntry)) (k : string) (e : ToolEntry) :
  Forall (fun kv => exposedNameOf ov kv.1 <> X) l1 ->
  exposedNameOf ov k = X ->
  scanEntries ov X (l1 ++ (k, e) :: l2) = Some (k, e).
Proof.
  intros Hl1 Hk. induction Hl1 as [|[k1 e1] l1 H1 _ IH]; simpl.
  - now rewrite decide_True.
  - simpl in H1. now rewrite decide_False.
Qed.

Lemma scanEntries_none (ov : gmap string ToolSettings) (X : string)
    (l : list (string * ToolEntry)) :
  scanEntries ov X l = None <-> Forall (fun kv => exposedNameOf ov kv.1 <> X) l.
Proof.
  induction l as [|[k e] l IH]; simpl.
  - split; [constructor | reflexivity].
  - destruct (decide (exposedNameOf ov k = X)) as [Heq|Hne].
    + split; [discriminate|]. intros H. inversion H; subst. simpl in *. contradiction.
    + rewrite IH. split; [now constructor | intros H; now inversion H].
Qed.

(** The call is unknown exactly when no entry is exposed under the name, or
    the first such entry has an empty key. *)
Lemma callTool_unknown (st : State) (params : CallToolParams) :
  Forall (fun kv => exposedIn st kv.1 <> ctp_name params) (toolToClientMap st) ->
  _handleCallTool st params = inl (UnknownTool (ctp_name params)).
Proof.
  intros H. unfold _handleCallTool.
  apply scanEntries_none in H. unfold exposedIn in H. now rewrite H.
Qed.

Lemma callTool_first (st : State) (params : CallToolParams)
    (l1 l2 : list (string * ToolEntry)) (k : string) (e : ToolEntry) :
  toolToClientMap st = l1 ++ (k, e) :: l2 ->
  k <> "" ->
  Forall (fun kv => exposedIn st kv.1 <> ctp_name params) l1 ->
  exposedIn st k = ctp_name params ->
  _handleCallTool st params = inr (forwarded e params).
Proof.
  intros Hmap Hk Hl1 Hx. unfold _handleCallTool. rewrite Hmap.
  rewrite (scanEntries_first _ _ l1 l2 k e Hl1 Hx).
  now rewrite decide_False.
Qed.

Lemma well_keyed_nonempty (st : State) (k : string) (e : ToolEntry) :
  well_keyed st -> (k, e) ∈ toolToClientMap st -> k <> "".
Proof.
  unfold well_keyed. rewrite Forall_forall. intros H Hin.
  specialize (H _ Hin). simpl in H. rewrite H. apply qualifiedName_nonempty.
Qed.

(** [Map.set] of well-keyed entries keeps a map well keyed. *)
Lemma set_well_keyed (P : string * ToolEntry -> Prop) (k : string) (e : ToolEntry)
    (m : JsMap.t ToolEntry) :
  Forall P m -> P (k, e) -> (forall e', P (k, e') -> P (k, e)) ->
  Forall P (JsMap.set k e m).
Proof.
  intros Hm Hke _. induction Hm as [|[k0 e0] m H0 Hm IH]; simpl.
  - repeat constructor. exact Hke.
  - destruct (decide (k0 = k)) as [->|Hne]; constructor; auto.
Qed.

Lemma set_all_Forall (P : string * ToolEntry -> Prop) (kvs : list (string * ToolEntry))
    (m : JsMap.t ToolEntry) :
  Forall P m -> Forall P kvs -> Forall P (set_all kvs m).
Proof.
  intros Hm Hkvs. revert m Hm. induction Hkvs as [|[k e] kvs Hke _ IH]; intros m Hm.
  - exact Hm.
  - simpl. apply IH. apply set_well_keyed; auto.
Qed.

Lemma toolEntries_spec (w : World) (tc : ToolConfig) (c : ConnectedClient)
    (k : string) (e : ToolEntry) :
  (k, e) ∈ toolEntries w tc c
  <-> exists tool,
        tool ∈ reportedTools w c
        /\ k = qualifiedName (cc_name c) (tool_name tool)
        /\ e = mkToolEntry c tool
        /\ isEnabled (tools tc !! k) = true.
Proof.
  unfold toolEntries. rewrite list_elem_of_omap. split.
  - intros (tool & Hin & Heq). cbv zeta in Heq.
    destruct (isEnabled _) eqn:Hen; [|discriminate].
    injection Heq as <- <-. eauto.
  - intros (tool & Hin & -> & -> & Hen). exists tool. split; [exact Hin|].
    cbv zeta. now rewrite Hen.
Qed.

(** An aggregation pass leaves the tool map well keyed, with distinct keys,
    none of them disabled. *)
Lemma aggregated_well_keyed (w : World) (st : State) : well_keyed (aggregated w st).
Proof.
  unfold well_keyed, aggregated. cbn [toolToClientMap].
  apply set_all_Forall; [constructor|].
  apply Forall_forall. intros [k e] Hin.
  apply list_elem_of_In, in_flat_map in Hin as (c & _ & Hin).
  apply list_elem_of_In, toolEntries_spec in Hin as (tool & _ & -> & -> & _).
  reflexivity.
Qed.

Lemma aggregated_NoDup (w : World) (st : State) :
  NoDup (JsMap.keys (toolToClientMap (aggregated w st))).
Proof. apply NoDup_keys_set_all. constructor. Qed.

Lemma aggregated_keys (w : World) (st : State) (k : string) :
  k ∈ JsMap.keys (toolToClientMap (aggregated w st))
  <-> exists c tool,
        c ∈ currentConnectedClients st
        /\ tool ∈ reportedTools w c
        /\ k = qualifiedName (cc_name c) (tool_name tool)
        /\ isEnabled (tools (currentToolConfig st) !! k) = true.
Proof.
  unfold aggregated. cbn [toolToClientMap].
  rewrite elem_keys_set_all. split.
  - intros [Hin | Hin]; [|now apply elem_of_nil in Hin].
    apply list_elem_of_fmap in Hin as ([k' e] & -> & Hin).
    apply list_elem_of_In, in_flat_map in Hin as (c & Hc & Hin).
    apply list_elem_of_In in Hc.
    apply list_elem_of_In, toolEntries_spec in Hin as (tool & Ht & -> & -> & Hen).
    eauto 10.
  - intros (c & tool & Hc & Ht & -> & Hen). left.
    apply list_elem_of_fmap. exists (qualifiedName (cc_name c) (tool_name tool),
                                mkToolEntry c tool).
    split; [reflexivity|]. apply list_elem_of_In, in_flat_map. exists c.
    split; [now apply list_elem_of_In|].
    apply list_elem_of_In, toolEntries_spec. eauto.
Qed.

End RoutingFacts.

Section InsertionOrder.
Context {V : Type}.

Lemma first_occurrences_ext (s1 s2 l : list string) :
  (forall x, x ∈ s1 <-> x ∈ s2) -> first_occurrences s1 l = first_occurrences s2 l.
Proof.
  revert s1 s2. induction l as [|k l IH]; intros s1 s2 H; simpl; [reflexivity|].
  destruct (decide (k ∈ s1)) as [H1|H1], (decide (k ∈ s2)) as [H2|H2].
  - now apply IH.
  - now apply H in H1.
  - now apply H in H2.
  - f_equal. apply IH. intros x. rewrite !elem_of_cons, H. tauto.
Qed.

(** A map filled by [set] lists its keys in the order they were first set. *)
Lemma keys_set_all (kvs : list (string * V)) (m : JsMap.t V) :
  JsMap.keys (set_all kvs m)
  = JsMap.keys m ++ first_occurrences (JsMap.keys m) (map fst kvs).
Proof.
  revert m. induction kvs as [|[k v] kvs IH]; intros m; simpl.
  - now rewrite app_nil_r.
  - rewrite IH, keys_set. unfold JsMap.has.
    destruct (JsMap.get k m) eqn:Hg.
    + rewrite decide_True; [reflexivity|].
      destruct (decide (k ∈ JsMap.keys m)) as [H|H]; [exact H|].
      apply get_None in H. congruence.
    + apply get_None in Hg. rewrite decide_False by exact Hg.
      rewrite <- app_assoc. simpl. do 2 f_equal.
      apply first_occurrences_ext. intros x.
      rewrite elem_of_app, !elem_of_cons, elem_of_nil. tauto.
Qed.

End InsertionOrder.

(** C10.  Nothing keeps two entries of the tool map from being exposed under
    one name.  A call with a name then does not fail: it is forwarded to the
    first entry, in the order of the map, exposed under that name, whatever
    comes after it, so that no later entry is reached through that name; and
    the order of the map an aggregation pass leaves is the order in which the
    qualified names of the enabled tools were first met, client by client and
    tool by tool. *)
Theorem first_match_routing (st : ProxyService.State)
    (l1 l2 : list (string * ProxyService.ToolEntry)) (k : string)
    (e : ProxyService.ToolEntry) (params : ProxyService.CallToolParams) :
  well_keyed st ->
  ProxyService.toolToClientMap st = l1 ++ (k, e) :: l2 ->
  Forall (fun kv => exposedIn st kv.1 <> ProxyService.ctp_name params) l1 ->
  exposedIn st k = ProxyService.ctp_name params ->
  ProxyService._handleCallTool st params = inr (forwarded e params)
  /\ (forall kv, kv ∈ l2 ->
        forwarded kv.2 params <> forwarded e params ->
        ProxyService._handleCallTool st params <> inr (forwarded kv.2 params))
  /\ (forall w st0,
        JsMap.keys (ProxyService.toolToClientMap (Eff.final (ProxyService.aggregate w st0)))
        = first_occurrences []
            (map fst (flat_map (toolEntries w (ProxyService.currentToolConfig st0))
                               (ProxyService.currentConnectedClients st0)))).
Proof.
  intros Hwk Hmap Hl1 Hx.
  assert (Hcall : ProxyService._handleCallTool st params = inr (forwarded e params)).
  { apply (callTool_first st params l1 l2 k e Hmap); [|exact Hl1|exact Hx].
    apply (well_keyed_nonempty st k e Hwk). rewrite Hmap.
    apply elem_of_app. right. apply list_elem_of_here. }
  split; [exact Hcall|]. split.
  - intros kv _ Hne. rewrite Hcall. congruence.
  - intros w st0. rewrite aggregate_final. unfold aggregated.
    cbn [ProxyService.toolToClientMap]. now rewrite keys_set_all.
Qed.

(** C1 fails as stated: [b--u] is in the tool map and its override sets the
    exposed name [a--t], list-tools lists [a--t] twice, and a call of
    [a--t] is forwarded to the backend [a] with the tool name [t], not to
    [b] with [u]. *)
Lemma override_round_trip_counterexample :
  let st := Scenario.after Scenario.cfg_ab Scenario.collide in
  let entry := ProxyService.mkToolEntry Scenario.b Scenario.u in
  let params := ProxyService.mkCallToolParams "a--t" None None in
  ("b--u", entry) ∈ ProxyService.toolToClientMap st
  /\ tools (ProxyService.currentToolConfig st) !! "b--u" ≫= exposedName = Some "a--t"
  /\ map tool_name (ProxyService._handleListTools st) = ["a--t"; "a--t"]
  /\ ProxyService._handleCallTool st params
     = inr (ProxyService.mkToolCall Scenario.a "tools/call" "t" [] None)
  /\ ProxyService._handleCallTool st params <> inr (forwarded entry params).
Proof.
  cbv zeta. split; [|split; [|split; [|split]]].
  - apply list_elem_of_In. vm_compute. tauto.
  - vm_compute. reflexivity.
  - vm_compute. reflexivity.
  - vm_compute. reflexivity.
  - vm_compute. discriminate.
Qed.

(** An exposed name or description set to the empty string counts as not
    set. *)
Example blank_override :
  map (fun tool => (tool_name tool, tool_description tool))
      (ProxyService._handleListTools (Scenario.after Scenario.cfg_srv Scenario.blank))
  = [("srv--ping", Some "Ping the server"); ("srv--pong", None)].
Proof. vm_compute. reflexivity. Qed.

(** Of two tools with one qualified name the tool map keeps the one
    registered last, at the place of the first. *)
Example collision_overwrites :
  ProxyService.toolToClientMap
    (Eff.final (ProxyService.updateBackendConnections Scenario.world_collision
                  (Some Scenario.cfg_collision) (Some Scenario.no_overrides)
                  ProxyService.initial))
  = [("a--b--c",
      ProxyService.mkToolEntry (mkConnectedClient 2850 "a--b")
                               (mkTool "c" None Js.JNull))].
Proof. vm_compute. reflexivity. Qed.

(** C1, amended.  For an entry of the tool map whose override sets a
    non-empty exposed name [X]: list-tools returns, at the place of the
    entry, the name [X], the description of the override when it sets a
    non-empty one and else the description of the backend, and the input
    schema unchanged; and when no entry before it in the map is exposed
    under [X], a call of [X] is forwarded to the backend of the entry with
    the tool name the backend gave, the caller's arguments (an empty object
    when there are none) and metadata.  The key of the entry is the
    qualified name of that backend and that tool name. *)
Theorem override_round_trip (st : ProxyService.State)
    (l1 l2 : list (string * ProxyService.ToolEntry)) (Q : string)
    (e : ProxyService.ToolEntry) (ts : ToolSettings) (X : string)
    (params : ProxyService.CallToolParams) :
  well_keyed st ->
  ProxyService.toolToClientMap st = l1 ++ (Q, e) :: l2 ->
  tools (ProxyService.currentToolConfig st) !! Q = Some ts ->
  exposedName ts = Some X ->
  X <> "" ->
  ProxyService.ctp_name params = X ->
  ProxyService._handleListTools st !! length l1
  = Some (mkTool X
            (match exposedDescription ts with
             | Some d => if decide (d = "") then tool_description (ProxyService.toolInfo e)
                         else Some d
             | None => tool_description (ProxyService.toolInfo e)
             end)
            (tool_inputSchema (ProxyService.toolInfo e)))
  /\ (Forall (fun kv => exposedIn st kv.1 <> X) l1 ->
      ProxyService._handleCallTool st params
      = inr (ProxyService.mkToolCall (ProxyService.client e) "tools/call"
               (tool_name (ProxyService.toolInfo e))
               (default [] (ProxyService.ctp_arguments params))
               (ProxyService.ctp_meta params)))
  /\ Q = qualifiedName (cc_name (ProxyService.client e))
                       (tool_name (ProxyService.toolInfo e)).
Proof.
  intros Hwk Hmap Hov HX Hne Hname.
  assert (Hexp : exposedIn st Q = X).
  { unfold exposedIn, ProxyService.exposedNameOf. rewrite Hov. simpl. rewrite HX.
    simpl. now rewrite decide_False. }
  assert (Hin : (Q, e) ∈ ProxyService.toolToClientMap st).
  { rewrite Hmap. apply elem_of_app. right. apply list_elem_of_here. }
  split; [|split].
  - unfold ProxyService._handleListTools. rewrite Hmap, map_app.
    rewrite lookup_app_r; rewrite length_map; [|lia].
    rewrite Nat.sub_diag. simpl. f_equal. f_equal.
    + exact Hexp.
    + unfold ProxyService.exposedDescriptionOf. rewrite Hov. reflexivity.
  - intros Hl1. subst X.
    apply (callTool_first st params l1 l2 Q e Hmap); [|exact Hl1|exact Hexp].
    apply (well_keyed_nonempty st Q e Hwk Hin).
  - unfold well_keyed in Hwk. rewrite Forall_forall in Hwk. exact (Hwk _ Hin).
Qed.

Lemma override_round_trip_witness :
  let st := Scenario.after Scenario.cfg_srv Scenario.rename in
  ProxyService._handleListTools st !! 0%nat
  = Some (mkTool "p" (Some "Renamed ping") Js.JNull)
  /\ ProxyService._handleCallTool st
       (ProxyService.mkCallToolParams "p" (Some [("n", Js.JNum 1)]) None)
     = inr (ProxyService.mkToolCall Scenario.srv "tools/call" "ping"
              [("n", Js.JNum 1)] None)
  /\ "srv--ping" = qualifiedName "srv" "ping".
Proof.
  cbv zeta.
  destruct (override_round_trip
              (Scenario.after Scenario.cfg_srv Scenario.rename)
              [] [("srv--pong", ProxyService.mkToolEntry Scenario.srv Scenario.pong)]
              "srv--ping" (ProxyService.mkToolEntry Scenario.srv Scenario.ping)
              (mkToolSettings None (Some "p") (Some "Renamed ping")) "p"
              (ProxyService.mkCallToolParams "p" (Some [("n", Js.JNum 1)]) None))
    as (H1 & H2 & H3).
  - vm_compute. repeat constructor.
  - vm_compute. reflexivity.
  - vm_compute. reflexivity.
  - reflexivity.
  - discriminate.
  - reflexivity.
  - split; [exact H1|]. split; [|exact H3]. apply H2. constructor.
Defined.

Lemma first_match_routing_witness :
  let st := Scenario.after Scenario.cfg_ab Scenario.collide in
  let params := ProxyService.mkCallToolParams "a--t" None None in
  ProxyService._handleCallTool st params
  = inr (forwarded (ProxyService.mkToolEntry Scenario.a Scenario.t) params).
Proof.
  cbv zeta.
  apply (first_match_routing
           (Scenario.after Scenario.cfg_ab Scenario.collide)
           [] [("b--u", ProxyService.mkToolEntry Scenario.b Scenario.u)]
           "a--t" (ProxyService.mkToolEntry Scenario.a Scenario.t)
           (ProxyService.mkCallToolParams "a--t" None None)).
  - vm_compute. repeat constructor.
  - vm_compute. reflexivity.
  - constructor.
  - vm_compute. reflexivity.
Defined.

Section AfterReconcile.
Variable w : World.
Import ProxyService.

Lemma update_final (nsc : option Config) (ntc : option ToolConfig) (st0 : State) :
  Eff.final (updateBackendConnections w nsc ntc st0)
  = aggregated w (reconnected w (configInUse w nsc) (toolConfigInUse w ntc) st0).
Proof. now rewrite update_run. Qed.

Lemma listTools_names (st : State) :
  map tool_name (_handleListTools st) = map (fun kv => exposedIn st kv.1) (toolToClientMap st).
Proof. unfold _handleListTools. now rewrite map_map. Qed.

Lemma isEnabled_spec (o : option ToolSettings) :
  isEnabled o = true
  <-> o = None \/ exists ts, o = Some ts /\ enabled ts <> Some false.
Proof.
  unfold isEnabled. destruct o as [ts|].
  - rewrite negb_true_iff, bool_decide_eq_false. split.
    + intros H. right. eauto.
    + intros [H|(ts' & [= <-] & H)]; [discriminate | exact H].
  - split; auto.
Qed.

End AfterReconcile.




(** C7 fails as stated: with [srv--ping] exposed as [p], the exported
    record of that tool is named [ping], which is neither the exposed name
    nor the qualified name. *)
Lemma state_export_counterexample :
  let st := Scenario.after Scenario.cfg_srv Scenario.rename in
  map fst (ProxyService.toolToClientMap st) = ["srv--ping"; "srv--pong"]
  /\ map tool_name (ProxyService._handleListTools st) = ["p"; "srv--pong"]
  /\ map ProxyService.ts_name (ProxyService.getCurrentProxyState st) = ["ping"; "pong"].
Proof. cbv zeta. repeat split; vm_compute; reflexivity. Qed.

(** C7, amended.  [getCurrentProxyState] returns one record for each entry
    of the tool map, in the order of the map: the name is the tool name the
    backend gave (not the qualified name, and not the exposed name of an
    override), the server name is that of the owning backend, or [Unknown]
    when it is empty, and the description is that of the backend; in a
    well-keyed state the key of the entry is the qualified name of the
    backend's name and the record's name. *)
Theorem state_export (st : ProxyService.State) :
  length (ProxyService.getCurrentProxyState st)
  = length (ProxyService.toolToClientMap st)
  /\ forall (i : nat) (k : string) (e : ProxyService.ToolEntry),
       ProxyService.toolToClientMap st !! i = Some (k, e) ->
       exists r,
         ProxyService.getCurrentProxyState st !! i = Some r
         /\ ProxyService.ts_name r = tool_name (ProxyService.toolInfo e)
         /\ ProxyService.ts_serverName r
            = (if decide (cc_name (ProxyService.client e) = "") then "Unknown"
               else cc_name (ProxyService.client e))
         /\ ProxyService.ts_description r = tool_description (ProxyService.toolInfo e)
         /\ (well_keyed st ->
             k = qualifiedName (cc_name (ProxyService.client e)) (ProxyService.ts_name r)).
Proof.
  unfold ProxyService.getCurrentProxyState. split; [apply length_map|].
  intros i k e Hi. eexists. split; [|split; [|split; [|split]]].
  - change (map ?f ?l) with (f <$> l). unfold JsMap.t in Hi.
    rewrite list_lookup_fmap, Hi. reflexivity.
  - reflexivity.
  - reflexivity.
  - reflexivity.
  - intros Hwk. unfold well_keyed in Hwk. rewrite Forall_forall in Hwk.
    apply (Hwk (k, e)). eapply list_elem_of_lookup_2, Hi.
Qed.

Lemma state_export_witness :
  exists r,
    ProxyService.getCurrentProxyState (Scenario.after Scenario.cfg_srv Scenario.rename)
      !! 0%nat = Some r
    /\ ProxyService.ts_name r = "ping"
    /\ ProxyService.ts_serverName r = "srv"
    /\ ProxyService.ts_description r = Some "Ping the server".
Proof.
  destruct (state_export (Scenario.after Scenario.cfg_srv Scenario.rename)) as [_ H].
  destruct (H 0%nat "srv--ping" (ProxyService.mkToolEntry Scenario.srv Scenario.ping))
    as (r & H1 & H2 & H3 & H4 & _).
  - vm_compute. reflexivity.
  - exists r. repeat split; assumption.
Defined.

(** ** The theorems at concrete inputs *)

Lemma retry_policy_witness :
  serverEvents Scenario.world ("down", Scenario.stdio "down-cmd")
  = [EvConnect "down" 0 4400;
     EvConsoleError "Failed to connect to down:" (Some Scenario.refused);
     EvClientClose 4400;
     EvSleep 2500;
     EvConnect "down" 1 4401;
     EvConsoleError "Failed to connect to down:" (Some Scenario.refused);
     EvClientClose 4401;
     EvSleep 2500;
     EvConnect "down" 2 4402;
     EvConsoleError "Failed to connect to down:" (Some Scenario.refused)]
  /\ Eff.outcome (ClientFactory.createMcpClients Scenario.world
                    (mcpServers Scenario.cfg_down) tt)
     = inr [Scenario.a; Scenario.b]
  /\ "down" ∉ map cc_name [Scenario.a; Scenario.b].
Proof.
  destruct (retry_policy Scenario.world
              [("a", Scenario.stdio "a-cmd")] [("b", Scenario.stdio "b-cmd")]
              "down" (Scenario.stdio "down-cmd"))
    as (H1 & H2 & H3 & H4 & H5).
  - reflexivity.
  - intros count. vm_compute. discriminate.
  - split; [exact H1|]. split; [exact H3|].
    apply H5; [|exact H3].
    intros H. apply list_elem_of_In in H. vm_compute in H.
    destruct H as [H|[H|[]]]; discriminate.
Defined.

Lemma reconcile_idempotent_witness :
  let r1 := ProxyService.updateBackendConnections Scenario.world
              (Some Scenario.cfg_down) (Some Scenario.no_overrides)
              ProxyService.initial in
  let r2 := ProxyService.updateBackendConnections Scenario.world
              (Some Scenario.cfg_down) (Some Scenario.no_overrides) (Eff.final r1) in
  Eff.final r2 = Eff.final r1
  /\ Scenario.a ∈ ProxyService.currentConnectedClients (Eff.final r2)
  /\ (EvCleanup Scenario.a ∉ Eff.events r2)
  /\ (forall count h, EvConnect "a" count h ∉ Eff.events r2).
Proof.
  cbv zeta.
  destruct (reconcile_idempotent Scenario.world (Some Scenario.cfg_down)
              (Some Scenario.no_overrides) ProxyService.initial)
    as (_ & H2 & _ & H4).
  split; [exact H2|].
  apply (H4 Scenario.a). apply list_elem_of_In. vm_compute. tauto.
Defined.

Lemma discovery_isolation_witness :
  let st := Scenario.after Scenario.cfg_srv_a Scenario.no_overrides in
  let r := ProxyService.aggregate Scenario.world st in
  Eff.outcome r = inr tt
  /\ ProxyService.promptToClientMap (Eff.final r)
     = ProxyService.promptToClientMap
         (Eff.final (ProxyService.aggregate Scenario.world
            (ProxyService.set_currentConnectedClients [Scenario.srv] st)))
  /\ EvConsoleError "Error fetching prompts from a:" (Some Scenario.timeout)
     ∈ Eff.events r.
Proof.
  cbv zeta.
  destruct (discovery_isolation Scenario.world
              (Scenario.after Scenario.cfg_srv_a Scenario.no_overrides)
              [Scenario.srv] [] Scenario.a prompts_list_m Scenario.timeout)
    as (H1 & H2 & _ & H4).
  - vm_compute. reflexivity.
  - reflexivity.
  - split; [exact H1|]. split; [exact H2|].
    apply H4. intros [_ H]. discriminate.
Defined.

(** ** Visibility of a reconciliation in progress *)

(** C2 fails as stated: reconciling again with an unchanged configuration,
    the request for the tools of [srv] is awaited with the three maps
    empty, while the tool map holds two entries both before and after. *)
Lemma partial_visibility_counterexample :
  ~ no_partial_visibility Scenario.world (Some Scenario.cfg_srv)
      (Some Scenario.no_overrides)
      (Scenario.after Scenario.cfg_srv Scenario.no_overrides).
Proof.
  intros H.
  destruct (H (EvRequest Scenario.srv tools_list_m)
              (ProxyService.mkState [Scenario.srv] [] [] [] Scenario.no_overrides))
    as [H1|H1].
  - apply list_elem_of_In. vm_compute. left. reflexivity.
  - reflexivity.
  - vm_compute in H1. discriminate.
  - vm_compute in H1. discriminate.
Qed.

(** C2, amended.  A reader scheduled at a suspension point of a
    reconciliation finds, while the configuration is loaded and backends are
    torn down and connected, the three maps of the generation before; and
    while a discovery request is awaited, the maps as cleared and refilled
    by the discovery calls answered so far, all three empty at the first
    request.  Each such state is visible, and the state the reconciliation
    leaves is the one refilled by all the calls. *)
Theorem reconcile_visibility (w : World) (newServerConfig : option Config)
    (newToolConfig : option ToolConfig) (st : ProxyService.State) :
  let st1 := reconnected w (configInUse w newServerConfig)
               (toolConfigInUse w newToolConfig) st in
  let steps := discoverySteps (ProxyService.currentConnectedClients st1) in
  let r := ProxyService.updateBackendConnections w newServerConfig newToolConfig st in
  (forall ev s,
     (ev, s) ∈ Eff.trace r -> is_await ev = true ->
     (ProxyService.routing s = ProxyService.routing st /\ request_of ev = None)
     \/ (exists done step rest,
           steps = done ++ step :: rest
           /\ ev = EvRequest step.2 step.1
           /\ s = refilled w st1 done))
  /\ Eff.final r = refilled w st1 steps
  /\ ProxyService.routing (refilled w st1 []) = ([], [], [])
  /\ (forall done step rest,
        steps = done ++ step :: rest ->
        (EvRequest step.2 step.1, refilled w st1 done) ∈ Eff.trace r).
Proof.
  intros st1 steps r. unfold r. rewrite update_run. fold st1.
  unfold Eff.trace, Eff.final. cbn [fst snd].
  split; [|split; [|split]].
  - intros ev s Hin Haw. rewrite !elem_of_app in Hin. destruct Hin as [Hin|[Hin|Hin]].
    + left. apply list_elem_of_In, in_map_iff in Hin as (e & [= <- <-] & He).
      split; [reflexivity|]. apply list_elem_of_In in He.
      unfold loadEvents in He. destruct newServerConfig, newToolConfig; simpl in He;
        repeat (apply elem_of_cons in He as [->|He]; [reflexivity|]);
        now apply elem_of_nil in He.
    + left. apply list_elem_of_In, in_map_iff in Hin as (e & [= <- <-] & He).
      split; [reflexivity|]. unfold connectionEvents in He.
      apply in_app_or in He as [He|He].
      * apply in_flat_map in He as (c & _ & He). unfold cleanupEvents in He.
        destruct He as [<-|He]; [reflexivity|].
        destruct (transport_close w c); [|contradiction].
        destruct He as [<-|[]]. reflexivity.
      * apply in_flat_map in He as (kv & _ & He).
        pose proof (serverRun_events w kv) as Hev. rewrite Forall_forall in Hev.
        apply list_elem_of_In in He. now destruct (Hev e He) as (_ & Hr & _).
    + right.
      apply (aggregate_trace w st1 (ev, s)) in Hin as (done & step & rest & Hs & Hst & He).
      exists done, step, rest. split; [exact Hs|]. split; [|exact Hst].
      cbn [fst] in He. apply elem_of_cons in He as [He|He]; [exact He|].
      unfold failureLog in He. destruct (failure w step.1 step.2) as [e|].
      * destruct (ProxyService.isMethodNotFound e).
        -- now apply elem_of_nil in He.
        -- apply list_elem_of_singleton in He. subst ev. discriminate.
      * now apply elem_of_nil in He.
  - rewrite <- (aggregate_final w st1). apply aggregate_outcome.
  - reflexivity.
  - intros done step rest Hs. rewrite !elem_of_app. right. right.
    apply (aggregate_trace w st1). exists done, step, rest.
    split; [exact Hs|]. split; [reflexivity|]. apply list_elem_of_here.
Qed.

Lemma reconcile_visibility_witness :
  let st := Scenario.after Scenario.cfg_srv Scenario.no_overrides in
  let r := ProxyService.updateBackendConnections Scenario.world
             (Some Scenario.cfg_srv) (Some Scenario.no_overrides) st in
  exists s,
    (EvRequest Scenario.srv tools_list_m, s) ∈ Eff.trace r
    /\ ProxyService.routing s = ([], [], [])
    /\ ProxyService.routing st <> ([], [], [])
    /\ ProxyService.routing (Eff.final r) = ProxyService.routing st.
Proof.
  cbv zeta.
  destruct (reconcile_visibility Scenario.world (Some Scenario.cfg_srv)
              (Some Scenario.no_overrides)
              (Scenario.after Scenario.cfg_srv Scenario.no_overrides))
    as (_ & _ & H3 & H4).
  eexists. split; [|split; [exact H3|split]].
  - apply (H4 [] (tools_list_m, Scenario.srv)
              [(resources_list_m, Scenario.srv); (prompts_list_m, Scenario.srv)]).
    vm_compute. reflexivity.
  - vm_compute. discriminate.
  - vm_compute. reflexivity.
Defined.

(** ** Event-stream sessions *)

Section JsMapDelete.
Context {V : Type}.

Lemma get_delete (k k' : string) (m : JsMap.t V) :
  JsMap.get k (JsMap.delete k' m) = if decide (k' = k) then None else JsMap.get k m.
Proof.
  induction m as [|[k0 v0] m IH]; simpl.
  - now destruct (decide (k' = k)).
  - destruct (decide (k0 = k')) as [->|Hne].
    + rewrite IH. destruct (decide (k' = k)); reflexivity.
    + simpl. destruct (decide (k0 = k)) as [->|Hne'].
      * now rewrite decide_False by congruence.
      * exact IH.
Qed.

End JsMapDelete.

Section SessionFacts.
Variable env : HttpService.Env.
Import HttpService.

(** The authentication gate never throws and never touches the registry;
    it only logs, and answers 401 when it stops the request. *)
Lemma authGate_run (req : Request) (st : State) :
  exists b log,
    authGate env req st = (inr b, st, log)
    /\ Forall (fun x => forall t, x.1 <> TransportClose t /\ x.1 <> HandlePostMessage t) log.
Proof.
  unfold authGate. destruct (authEnabled env).
  - unfold Eff.bind at 1.
    assert (Hb : exists b log, bearerCheck env req st = (inr b, st, log)
              /\ Forall (fun x => forall t, x.1 <> TransportClose t
                                           /\ x.1 <> HandlePostMessage t) log).
    { unfold bearerCheck. destruct (authorization req) as [h|].
      - destruct (Js.truthy (Some h) && String.prefix "Bearer " h).
        + destruct (bool_decide _).
          * eexists _, []. split; [reflexivity | constructor].
          * eexists _, _. split; [reflexivity|].
            repeat constructor; simpl; discriminate.
        + eexists _, []. split; [reflexivity | constructor].
      - eexists _, []. split; [reflexivity | constructor]. }
    destruct Hb as (b1 & log1 & -> & Hlog1).
    unfold Eff.bind at 1.
    assert (Hk : exists b log, apiKeyCheck env req b1 st = (inr b, st, log)
              /\ Forall (fun x => forall t, x.1 <> TransportClose t
                                           /\ x.1 <> HandlePostMessage t) log).
    { unfold apiKeyCheck. destruct (negb b1 && _).
      - destruct (Js.or_opt (x_api_key req) (query_key req)) as [key|].
        + destruct (Js.truthy (Some key) && _).
          * eexists _, []. split; [reflexivity | constructor].
          * destruct (Js.truthy (Some key)).
            -- eexists _, _. split; [reflexivity|].
               repeat constructor; simpl; discriminate.
            -- eexists _, []. split; [reflexivity | constructor].
        + eexists _, []. split; [reflexivity | constructor].
      - eexists _, []. split; [reflexivity | constructor]. }
    destruct Hk as (b2 & log2 & -> & Hlog2).
    destruct b2; simpl.
    + eexists _, _. split; [reflexivity|].
      rewrite app_nil_r. apply Forall_app. split; assumption.
    + eexists _, _. split; [reflexivity|].
      apply Forall_app. split; [assumption|]. apply Forall_app. split; [assumption|].
      repeat constructor; simpl; discriminate.
  - eexists _, []. split; [reflexivity | constructor].
Qed.

(** The [onerror] and [onclose] closures only ever remove their own id. *)
Lemma sessionEnded_get (id k : string) (st : State) :
  JsMap.get k (sseTransports (Eff.final (sessionEnded id st)))
  = if decide (id = k) then None else JsMap.get k (sseTransports st).
Proof.
  unfold sessionEnded, Eff.bind, Eff.get, JsMap.has.
  destruct (JsMap.get id (sseTransports st)) eqn:Hg; simpl.
  - apply get_delete.
  - destruct (decide (id = k)) as [<-|]; [exact Hg | reflexivity].
Qed.

(** A message for an id without a registered transport is answered 404 and
    reaches no transport. *)
Lemma message_not_found (req : Request) (st : State) (id : string) :
  Js.or_opt (params_sessionId req) (query_sessionId req) = Some id ->
  id <> "" ->
  JsMap.get id (sseTransports st) = None ->
  _handleMessage env req st
  = (inr tt, st,
     [(ConsoleError
         ("POST /message error: No active SSE transport for Session ID: " +:+ id), st);
      (Respond 404 ("No active SSE session found for ID " +:+ id), st)]).
Proof.
  intros Hid Hne Hg. unfold _handleMessage. rewrite Hid.
  assert (Htr : Js.truthy (Some id) = true).
  { unfold Js.truthy. now rewrite decide_False. }
  rewrite Htr. cbn [negb].
  unfold Eff.bind at 1, Eff.get at 1. rewrite Hg. reflexivity.
Qed.

End SessionFacts.


